(** * Build-graph determinism verifier: [scripts/ninja_determinism_test.py]

    A shallow embedding of the script and the properties of its directive
    scanner, transitive resolver, hashing walk, packager and orchestrator.

    Conventions of the embedding
    - Python [bytes] are [list byte]; Python [str] is a [string] holding the
      UTF-8 code units of the text, so [bytes.decode()] is UTF-8 validation
      followed by a change of type.  Every [str] operation the script uses
      ([+], [in] with an ASCII needle, [removeprefix] with an ASCII prefix,
      [os.path.join], dictionary keys) commutes with that representation.
    - Python integers are [Z]; indices follow Python's slice rules.
    - Exceptions are values of [exn]; a computation that may raise returns a
      [result].  The resolver, which is not structurally recursive, takes a
      recursion budget and returns [None] when it is used up; what is proved
      of it is proved of budgets that suffice.  The hashing walk runs under
      the interpreter's limit on the depth of its stack: it takes the number
      of frames the limit leaves and raises [RecursionError] when none is
      left.  The loop of [get_top] takes a bound on its turns.
    - The file system is a finite map from path strings to file contents,
      without directories, permissions or aliasing of paths. *)

From stdpp Require Import base option list gmap fin_maps strings.
From Stdlib Require Import ZArith Lia Strings.Byte Strings.Ascii.

#[local] Open Scope Z_scope.
#[local] Open Scope list_scope.

Abbreviation bytes := (list byte).

#[global] Instance byte_eq_decision : EqDecision byte := Byte.byte_eq_dec.

(** ** Exceptions and results *)

Inductive exn : Type :=
| SystemExit (msg : string)
| ValueError (msg : string)
| UnicodeDecodeError
| FileNotFoundError (path : string)
| RecursionError
| EnvironmentFailure.

Inductive result (A : Type) : Type :=
| Ok (a : A)
| Raise (e : exn).
Arguments Ok {A} a.
Arguments Raise {A} e.

Definition rbind {A B} (m : result A) (f : A → result B) : result B :=
  match m with
  | Ok a => f a
  | Raise e => Raise e
  end.

Notation "'try' x <- m ; k" := (rbind m (fun x => k))
  (at level 10, x name, m at level 100, k at level 200,
   format "'[v' 'try'  x  <-  m ; '/' k ']'").

Definition is_ok {A} (r : result A) : bool :=
  match r with Ok _ => true | Raise _ => false end.

(** [results.append(f(x))] for every [x], stopping at the first exception. *)
Fixpoint traverse {A B} (f : A → result B) (l : list A) : result (list B) :=
  match l with
  | [] => Ok []
  | x :: l' =>
      try y <- f x;
      try ys <- traverse f l';
      Ok (y :: ys)
  end.

(** ** The Python primitives the script relies on *)

Module Py.

Definition b (s : string) : bytes := String.list_byte_of_string s.

Definition LF : byte := x0a.
Definition CR : byte := x0d.

Definition len {A} (s : list A) : Z := Z.of_nat (length s).

(** [s.startswith(p)] on [bytes]. *)
Fixpoint startswith (s p : bytes) {struct p} : bool :=
  match p, s with
  | [], _ => true
  | _ :: _, [] => false
  | c :: p', d :: s' => Byte.eqb c d && startswith s' p'
  end.

(** Index normalisation of a slice bound or of [find]'s start. *)
Definition clamp (n k : Z) : Z :=
  if k <? 0 then Z.max 0 (k + n) else Z.min k n.

(** [s[i:j]] and [s[i:]]. *)
Definition slice (s : bytes) (i j : Z) : bytes :=
  let i' := clamp (len s) i in
  let j' := clamp (len s) j in
  take (Z.to_nat (j' - i')) (drop (Z.to_nat i') s).

Definition slice_from (s : bytes) (i : Z) : bytes :=
  drop (Z.to_nat (clamp (len s) i)) s.

(** The first position at or after [pos] where [sub] occurs, [-1] if none;
    [s] is the text from [pos] on. *)
Fixpoint find_at (sub s : bytes) (pos : Z) : Z :=
  if startswith s sub then pos
  else match s with
       | [] => -1
       | _ :: s' => find_at sub s' (pos + 1)
       end.

(** [s.find(sub, start)]. *)
Definition find (s sub : bytes) (start : Z) : Z :=
  let i := if start <? 0 then Z.max 0 (start + len s) else start in
  if len s <? i then -1
  else find_at sub (drop (Z.to_nat i) s) i.

(** [s.removesuffix(suf)]. *)
Definition removesuffix (s suf : bytes) : bytes :=
  let n := (length s - length suf)%nat in
  match suf with
  | [] => s
  | _ => if (length suf <=? length s)%nat && startswith (drop n s) suf
         then take n s else s
  end.

(** Strict UTF-8 well-formedness, as enforced by [bytes.decode()]. *)
Definition between (lo hi : N) (c : byte) : bool :=
  (N.leb lo (Byte.to_N c) && N.leb (Byte.to_N c) hi)%bool.

Definition cont : byte → bool := between 128 191.

Fixpoint utf8_valid (s : bytes) : bool :=
  match s with
  | [] => true
  | c0 :: s1 =>
      if between 0 127 c0 then utf8_valid s1
      else if between 194 223 c0 then
        match s1 with
        | c1 :: s2 => cont c1 && utf8_valid s2
        | _ => false
        end
      else if between 224 239 c0 then
        match s1 with
        | c1 :: c2 :: s3 =>
            (if between 224 224 c0 then between 160 191 c1
             else if between 237 237 c0 then between 128 159 c1
             else cont c1)
            && cont c2 && utf8_valid s3
        | _ => false
        end
      else if between 240 244 c0 then
        match s1 with
        | c1 :: c2 :: c3 :: s4 =>
            (if between 240 240 c0 then between 144 191 c1
             else if between 244 244 c0 then between 128 143 c1
             else cont c1)
            && cont c2 && cont c3 && utf8_valid s4
        | _ => false
        end
      else false
  end.

(** [s.decode()]. *)
Definition decode (s : bytes) : result string :=
  if utf8_valid s then Ok (String.string_of_list_byte s)
  else Raise UnicodeDecodeError.

(** [sub in s] on [str]. *)
Fixpoint str_in (sub s : string) : bool :=
  String.prefix sub s
  || match s with
     | EmptyString => false
     | String _ s' => str_in sub s'
     end.

(** [s.removeprefix(p)] on [str]. *)
Fixpoint strip_prefix (p s : string) : option string :=
  match p with
  | EmptyString => Some s
  | String c p' =>
      match s with
      | EmptyString => None
      | String d s' => if Ascii.eqb c d then strip_prefix p' s' else None
      end
  end.

Definition str_removeprefix (s p : string) : string :=
  match strip_prefix p s with
  | Some s' => s'
  | None => s
  end.

Definition str_endswith (s p : string) : bool :=
  let n := (String.length s - String.length p)%nat in
  (String.length p <=? String.length s)%nat
  && String.eqb (String.substring n (String.length p) s) p.

(** [os.path.join(a, b)] of [posixpath]. *)
Definition path_join (a p : string) : string :=
  if String.prefix "/" p then p
  else if String.eqb a "" || str_endswith a "/" then a +:+ p
  else a +:+ "/" +:+ p.

End Py.

(** ** A backtracking matcher for the fragment of [re] the script uses *)

Module Re.

Inductive regex (C : Type) : Type :=
| Eps
| Chr (p : C → bool)
| Seq (r1 r2 : regex C)
| Alt (r1 r2 : regex C)
| Opt (r : regex C)
| Star (r : regex C).
Arguments Eps {C}.
Arguments Chr {C} p.
Arguments Seq {C} r1 r2.
Arguments Alt {C} r1 r2.
Arguments Opt {C} r.
Arguments Star {C} r.

Section Matcher.
Context {C : Type}.

(** [run r s k] matches [r] at the head of [s] and hands the rest of the
    text to [k]; alternatives are tried left to right and repetition is
    greedy, so the first success is the one [re] reports. *)
Fixpoint run {R : Type} (r : regex C) (s : list C)
    (k : list C → option R) : option R :=
  match r with
  | Eps => k s
  | Chr p =>
      match s with
      | c :: s' => if p c then k s' else None
      | [] => None
      end
  | Seq r1 r2 => run r1 s (fun s' => run r2 s' k)
  | Alt r1 r2 =>
      match run r1 s k with
      | Some x => Some x
      | None => run r2 s k
      end
  | Opt r1 =>
      match run r1 s k with
      | Some x => Some x
      | None => k s
      end
  | Star r1 =>
      (fix loop (n : nat) (s : list C) : option R :=
         match n with
         | O => k s
         | S n' =>
             match run r1 s (fun s' =>
                     if (length s' <? length s)%nat then loop n' s'
                     else None) with
             | Some x => Some x
             | None => k s
             end
         end) (length s) s
  end.

(** [r.match(s)]: the text left after the match, if [r] matches at the
    start of [s]. *)
Definition match_ (r : regex C) (s : list C) : option (list C) :=
  run r s Some.

(** [r.finditer(s)] as the list of [(start, end)] of the matches.  After a
    match the scan resumes at its end; [skip] counts the characters of the
    last match still to be passed over.  The patterns of this script never
    match the empty string. *)
Fixpoint finditer_from (r : regex C) (skip : nat) (pos : Z)
    (s : list C) {struct s} : list (Z * Z) :=
  match skip with
  | S skip' =>
      match s with
      | [] => []
      | _ :: s' => finditer_from r skip' (pos + 1) s'
      end
  | O =>
      match match_ r s with
      | Some rest =>
          let n := (length s - length rest)%nat in
          (pos, pos + Z.of_nat n)
          :: match s with
             | [] => []
             | _ :: s' => finditer_from r (n - 1) (pos + 1) s'
             end
      | None =>
          match s with
          | [] => []
          | _ :: s' => finditer_from r 0 (pos + 1) s'
          end
      end
  end.

Definition finditer (r : regex C) (s : list C) : list (Z * Z) :=
  finditer_from r 0 0 s.

End Matcher.

(** A literal word. *)
Fixpoint lit {C} (eqb : C → C → bool) (w : list C) : regex C :=
  match w with
  | [] => Eps
  | c :: w' => Seq (Chr (eqb c)) (lit eqb w')
  end.

End Re.

(** ** [Product] *)

Definition in_range (lo hi c : ascii) : bool :=
  (N.leb (N_of_ascii lo) (N_of_ascii c)
   && N.leb (N_of_ascii c) (N_of_ascii hi))%bool.

(** [[a-zA-Z_]] *)
Definition ident_start (c : ascii) : bool :=
  in_range "a" "z" c || in_range "A" "Z" c || Ascii.eqb c "_".

(** [[a-zA-Z0-9_]] *)
Definition ident_char (c : ascii) : bool :=
  in_range "a" "z" c || in_range "A" "Z" c || in_range "0" "9" c
  || Ascii.eqb c "_".

Definition word (w : string) : Re.regex ascii :=
  Re.lit Ascii.eqb (String.list_ascii_of_string w).

(** [[a-zA-Z_][a-zA-Z0-9_]*] *)
Definition ident : Re.regex ascii :=
  Re.Seq (Re.Chr ident_start) (Re.Star (Re.Chr ident_char)).

(** The pattern [(I)(?:(?:-(I))?-(user|userdebug|eng))?], where [I] stands for
    the identifier pattern [ident] above. *)
Definition _PRODUCT_REGEX : Re.regex ascii :=
  Re.Seq ident
    (Re.Opt
       (Re.Seq (Re.Opt (Re.Seq (word "-") ident))
          (Re.Seq (word "-")
             (Re.Alt (word "user") (Re.Alt (word "userdebug") (word "eng")))))).

Record Product : Type := mkProduct {
  product : string;
  release : string;
  variant : string;
}.

(** [Product.__str__] *)
Definition Product_str (self : Product) : string :=
  product self +:+ "-" +:+ release self +:+ "-" +:+ variant self.

(** [Product.__post_init__] *)
Definition Product_post_init (self : Product) : result unit :=
  match Re.match_ _PRODUCT_REGEX (String.list_ascii_of_string (Product_str self)) with
  | None => Raise (ValueError ("Invalid product name: " +:+ Product_str self))
  | Some _ => Ok tt
  end.

(** The call [Product(p, r, v)]: the dataclass constructor followed by
    [__post_init__]. *)
Definition new_Product (p r v : string) : result Product :=
  let self := mkProduct p r v in
  try _ <- Product_post_init self;
  Ok self.

(** ** The directive scanner *)

(** [rb'\n(?:include|subninja) '] *)
Definition SUBNINJA_OR_INCLUDE_REGEX : Re.regex byte :=
  Re.Seq (Re.lit Byte.eqb (Py.b (String "010" "")))
    (Re.Seq (Re.Alt (Re.lit Byte.eqb (Py.b "include"))
                    (Re.lit Byte.eqb (Py.b "subninja")))
            (Re.lit Byte.eqb (Py.b " "))).

Definition get_path_from_directive (contents : bytes) (i : Z) : result string :=
  let j := Py.find contents [Py.LF] i in
  let path_bytes :=
    if j <? 0 then Py.slice_from contents i else Py.slice contents i j in
  let path_bytes := Py.removesuffix path_bytes [Py.CR] in
  try path <- Py.decode path_bytes;
  if Py.str_in "$" path then
    Raise (SystemExit
             ("includes/subninjas with variables are unsupported: " +:+ path))
  else Ok path.

Definition find_subninjas_and_includes (contents : bytes) : result (list string) :=
  try results <-
    (if Py.startswith contents (Py.b "include ") then
       try p <- get_path_from_directive contents (Py.len (Py.b "include "));
       Ok [p]
     else if Py.startswith contents (Py.b "subninja ") then
       try p <- get_path_from_directive contents (Py.len (Py.b "subninja "));
       Ok [p]
     else Ok []);
  try more <-
    traverse (fun m : Z * Z => get_path_from_directive contents (snd m))
      (Re.finditer SUBNINJA_OR_INCLUDE_REGEX contents);
  Ok (results ++ more).

Definition NL : string := String "010" "".

(** ** MD5, the digest behind [hashlib.md5] (RFC 1321) *)

Module MD5.

Definition w32 (x : Z) : Z := x mod 2 ^ 32.

Definition rotl (x c : Z) : Z :=
  w32 (Z.lor (Z.shiftl x c) (Z.shiftr x (32 - c))).

Definition K : list Z :=
  [3614090360; 3905402710; 606105819; 3250441966;
   4118548399; 1200080426; 2821735955; 4249261313;
   1770035416; 2336552879; 4294925233; 2304563134;
   1804603682; 4254626195; 2792965006; 1236535329;
   4129170786; 3225465664; 643717713; 3921069994;
   3593408605; 38016083; 3634488961; 3889429448;
   568446438; 3275163606; 4107603335; 1163531501;
   2850285829; 4243563512; 1735328473; 2368359562;
   4294588738; 2272392833; 1839030562; 4259657740;
   2763975236; 1272893353; 4139469664; 3200236656;
   681279174; 3936430074; 3572445317; 76029189;
   3654602809; 3873151461; 530742520; 3299628645;
   4096336452; 1126891415; 2878612391; 4237533241;
   1700485571; 2399980690; 4293915773; 2240044497;
   1873313359; 4264355552; 2734768916; 1309151649;
   4149444226; 3174756917; 718787259; 3951481745].

Definition shifts : list Z :=
  [7; 12; 17; 22; 7; 12; 17; 22; 7; 12; 17; 22; 7; 12; 17; 22;
   5; 9; 14; 20; 5; 9; 14; 20; 5; 9; 14; 20; 5; 9; 14; 20;
   4; 11; 16; 23; 4; 11; 16; 23; 4; 11; 16; 23; 4; 11; 16; 23;
   6; 10; 15; 21; 6; 10; 15; 21; 6; 10; 15; 21; 6; 10; 15; 21].

Definition byte_Z (c : byte) : Z := Z.of_N (Byte.to_N c).

Definition Z_byte (x : Z) : byte :=
  match Byte.of_N (Z.to_N (x mod 256)) with
  | Some c => c
  | None => x00
  end.

(** [n] bytes of [x], least significant first. *)
Fixpoint le_bytes (n : nat) (x : Z) : bytes :=
  match n with
  | O => []
  | S n' => Z_byte x :: le_bytes n' (Z.shiftr x 8)
  end.

Fixpoint le_word (l : bytes) : Z :=
  match l with
  | [] => 0
  | c :: l' => byte_Z c + 256 * le_word l'
  end.

Definition pad (msg : bytes) : bytes :=
  let n := length msg in
  let zeros := ((119 - n mod 64) mod 64)%nat in
  msg ++ x80 :: replicate zeros x00
      ++ le_bytes 8 ((8 * Z.of_nat n) mod 2 ^ 64).

Fixpoint chunks (fuel k : nat) (l : bytes) : list bytes :=
  match fuel with
  | O => []
  | S fuel' =>
      match l with
      | [] => []
      | _ => take k l :: chunks fuel' k (drop k l)
      end
  end.

Definition words (block : bytes) : list Z :=
  map le_word (chunks 16 4 block).

Definition state : Type := Z * Z * Z * Z.

Definition round (M : list Z) (st : state) (i : nat) : state :=
  let '(A, B, C, D) := st in
  let '(F, g) :=
    if (i <? 16)%nat then
      (Z.lor (Z.land B C) (Z.land (w32 (Z.lnot B)) D), i)
    else if (i <? 32)%nat then
      (Z.lor (Z.land D B) (Z.land (w32 (Z.lnot D)) C), (5 * i + 1) mod 16)%nat
    else if (i <? 48)%nat then
      (Z.lxor (Z.lxor B C) D, (3 * i + 5) mod 16)%nat
    else
      (Z.lxor C (Z.lor B (w32 (Z.lnot D))), (7 * i) mod 16)%nat in
  let F := w32 (F + A + nth i K 0 + nth g M 0) in
  (D, w32 (B + rotl F (nth i shifts 0)), B, C).

Definition compress (st : state) (block : bytes) : state :=
  let '(a0, b0, c0, d0) := st in
  let '(A, B, C, D) := foldl (round (words block)) st (seq 0 64) in
  (w32 (a0 + A), w32 (b0 + B), w32 (c0 + C), w32 (d0 + D)).

Definition init : state := (1732584193, 4023233417, 2562383102, 271733878).

Definition digest (msg : bytes) : bytes :=
  let p := pad msg in
  let '(A, B, C, D) := foldl compress init (chunks (length p) 64 p) in
  le_bytes 4 A ++ le_bytes 4 B ++ le_bytes 4 C ++ le_bytes 4 D.

Definition hex_digit (x : Z) : ascii :=
  ascii_of_N (Z.to_N (if x <? 10 then 48 + x else 87 + x)).

Fixpoint hex (l : bytes) : string :=
  match l with
  | [] => ""
  | c :: l' =>
      String (hex_digit (byte_Z c / 16))
        (String (hex_digit (byte_Z c mod 16)) (hex l'))
  end.

Definition hexdigest (msg : bytes) : string := hex (digest msg).

End MD5.

(** A [hashlib] hash object: [update] calls are equivalent to one call on
    the concatenation of their arguments, so the object is the data fed to
    it so far. *)
Record Hasher : Type := mkHasher { fed : bytes }.

Definition md5_new : Hasher := mkHasher [].

Definition hasher_update (h : Hasher) (data : bytes) : Hasher :=
  mkHasher (fed h ++ data).

Definition hasher_hexdigest (h : Hasher) : string := MD5.hexdigest (fed h).

(** ** The scanner as the specification words it

    The content is cut into lines at every newline; a line that begins with
    [include ] or [subninja ] is a directive, and its path is the rest of the
    line without one trailing carriage return. *)

Fixpoint split_lines (s : bytes) : list bytes :=
  match s with
  | [] => [[]]
  | c :: s' =>
      if Byte.eqb c Py.LF then [] :: split_lines s'
      else match split_lines s' with
           | l :: ls => (c :: l) :: ls
           | [] => [[c]]
           end
  end.

(** Lines put back together, with a newline between two of them. *)
Fixpoint join_lines (ls : list bytes) : bytes :=
  match ls with
  | [] => []
  | [l] => l
  | l :: ls' => l ++ Py.LF :: join_lines ls'
  end.

Fixpoint strip_trailing_cr (l : bytes) : bytes :=
  match l with
  | [] => []
  | [c] => if Byte.eqb c Py.CR then [] else [c]
  | c :: l' => c :: strip_trailing_cr l'
  end.

Definition directive_of_line (line : bytes) : option bytes :=
  if Py.startswith line (Py.b "include ") then
    Some (strip_trailing_cr (drop 8 line))
  else if Py.startswith line (Py.b "subninja ") then
    Some (strip_trailing_cr (drop 9 line))
  else None.

Definition directive_paths (contents : bytes) : list bytes :=
  omap directive_of_line (split_lines contents).

(** What becomes of one extracted path: it is decoded, and a [$] in it ends
    the program. *)
Definition checked_path (path_bytes : bytes) : result string :=
  try path <- Py.decode path_bytes;
  if Py.str_in "$" path then
    Raise (SystemExit
             ("includes/subninjas with variables are unsupported: " +:+ path))
  else Ok path.

(** ** The world the script runs in *)

(** [files] is the file system, [environ] the process environment, [reads]
    the paths opened for reading so far, in order, and [stdout], [stderr] the
    text written to the two streams, one entry per write. *)
Record World : Type := mkWorld {
  files : gmap string bytes;
  environ : gmap string string;
  reads : list string;
  stdout : list string;
  stderr : list string;
}.

Definition set_files (f : gmap string bytes) (w : World) : World :=
  mkWorld f (environ w) (reads w) (stdout w) (stderr w).

Definition set_environ (k v : string) (w : World) : World :=
  mkWorld (files w) (<[k := v]> (environ w)) (reads w) (stdout w) (stderr w).

Definition add_read (path : string) (w : World) : World :=
  mkWorld (files w) (environ w) (reads w ++ [path]) (stdout w) (stderr w).

(** [print(text)] and [print(text, file=sys.stderr)]. *)
Definition print_stdout (text : string) (w : World) : World :=
  mkWorld (files w) (environ w) (reads w) (stdout w ++ [text +:+ NL]) (stderr w).

Definition print_stderr (text : string) (w : World) : World :=
  mkWorld (files w) (environ w) (reads w) (stdout w) (stderr w ++ [text +:+ NL]).

(** [os.getenv(name, default)] *)
Definition getenv (w : World) (name dflt : string) : string :=
  default dflt (environ w !! name).

(** [open(path, 'rb').read()] *)
Definition read_file (path : string) (w : World) : result bytes * World :=
  match files w !! path with
  | Some contents => (Ok contents, add_read path w)
  | None => (Raise (FileNotFoundError path), w)
  end.

(** [open(path, 'wb')] followed by writing [data] and closing. *)
Definition write_file (path : string) (data : bytes) (w : World) : World :=
  set_files (<[path := data]> (files w)) w.

(** What the script takes from its surroundings: the steps of [main] before
    the builds ([parse_args], [os.chdir(get_top())], the [touch] subprocess),
    the two sandboxed builds awaited together by [asyncio.gather], the
    decoding of a file opened in text mode, [os.path.relpath], the encoding
    of a zip archive, and the text the interpreter prints for an exception
    that reaches the top level. *)
Class Platform : Type := {
  setup : World → result unit * World;
  run_builds : Product → string → string → World → result (bool * bool) * World;
  read_text : bytes → result string;
  relpath : string → string → string;
  zip_bytes : list (string * bytes) → bytes;
  traceback : exn → string;
}.

(** ** The transitive resolver *)

(** [os.path.join(out_dir, sub_file.removeprefix('out/'))] *)
Definition rejoin (out_dir sub_file : string) : string :=
  Py.path_join out_dir (Py.str_removeprefix sub_file "out/").

Abbreviation Seen := (gmap string bool).

(** [key in seen] *)
Definition seen_has (seen : Seen) (key : string) : bool :=
  bool_decide (is_Some (seen !! key)).

(** The [for sub_file in sub_files] loop of the resolver; [rec] is the
    recursive call. *)
Fixpoint resolve_loop
    (rec : string → Seen → World → option (result (list string) * Seen * World))
    (out_dir : string) (sub_files : list string) (results : list string)
    (seen : Seen) (w : World)
    : option (result (list string) * Seen * World) :=
  match sub_files with
  | [] => Some (Ok results, seen, w)
  | sub_file :: rest =>
      let sub_file := rejoin out_dir sub_file in
      if seen_has seen sub_file then
        resolve_loop rec out_dir rest results seen w
      else
        match rec sub_file seen w with
        | None => None
        | Some (Raise e, seen', w') => Some (Raise e, seen', w')
        | Some (Ok more, seen', w') =>
            resolve_loop rec out_dir rest (results ++ more) seen' w'
        end
  end.

Fixpoint transitively_included_ninja_files (fuel : nat)
    (out_dir ninja_file : string) (seen : Seen) (w : World)
    : option (result (list string) * Seen * World) :=
  match fuel with
  | O => None
  | S fuel' =>
      match read_file ninja_file w with
      | (Raise e, w1) => Some (Raise e, seen, w1)
      | (Ok contents, w1) =>
          let results := [ninja_file] in
          let seen := <[ninja_file := true]> seen in
          match find_subninjas_and_includes contents with
          | Raise e => Some (Raise e, seen, w1)
          | Ok sub_files =>
              resolve_loop (transitively_included_ninja_files fuel' out_dir)
                out_dir sub_files results seen w1
          end
      end
  end.

(** ** The hashing walk

    The walk has no bound of its own, the interpreter has one: every call
    of a function of the script takes a frame of the interpreter's stack,
    and a call made when the stack is at its limit raises [RecursionError].
    [frames] is the number of frames the limit leaves when the call is
    made. *)

(** Whether the scanner calls [get_path_from_directive] at all. *)
Definition has_directive (contents : bytes) : bool :=
  Py.startswith contents (Py.b "include ")
  || Py.startswith contents (Py.b "subninja ")
  || negb (bool_decide
             (Re.finditer SUBNINJA_OR_INCLUDE_REGEX contents = [])).

(** The call [find_subninjas_and_includes(contents)] with [frames] frames
    left: the call takes one frame, and the first call of
    [get_path_from_directive] inside it one more. *)
Definition call_find_subninjas_and_includes (frames : nat) (contents : bytes)
    : result (list string) :=
  match frames with
  | O => Raise RecursionError
  | S O =>
      if has_directive contents then Raise RecursionError
      else find_subninjas_and_includes contents
  | S (S _) => find_subninjas_and_includes contents
  end.

Fixpoint hash_loop
    (rec : string → Hasher → World → result unit * Hasher * World)
    (out_dir : string) (sub_files : list string) (hasher : Hasher) (w : World)
    : result unit * Hasher * World :=
  match sub_files with
  | [] => (Ok tt, hasher, w)
  | sub_file :: rest =>
      match rec (rejoin out_dir sub_file) hasher w with
      | (Raise e, hasher', w') => (Raise e, hasher', w')
      | (Ok _, hasher', w') => hash_loop rec out_dir rest hasher' w'
      end
  end.

Fixpoint hash_ninja_file (frames : nat) (out_dir ninja_file : string)
    (hasher : Hasher) (w : World)
    : result unit * Hasher * World :=
  match frames with
  | O => (Raise RecursionError, hasher, w)
  | S frames' =>
      match read_file ninja_file w with
      | (Raise e, w1) => (Raise e, hasher, w1)
      | (Ok contents, w1) =>
          match call_find_subninjas_and_includes frames' contents with
          | Raise e => (Raise e, hasher, w1)
          | Ok sub_files =>
              let hasher := hasher_update hasher contents in
              hash_loop (hash_ninja_file frames' out_dir) out_dir sub_files
                hasher w1
          end
      end
  end.

(** What a call of the walk ended with and the files opened by then. *)
Definition walk_outcome (r : result unit * Hasher * World)
    : result unit * list string :=
  (r.1.1, reads r.2).

(** ** [hash_files] *)

Fixpoint hash_files_loop (files : list string) (hasher : Hasher) (w : World)
    : result Hasher * World :=
  match files with
  | [] => (Ok hasher, w)
  | file :: rest =>
      match read_file file w with
      | (Raise e, w1) => (Raise e, w1)
      | (Ok contents, w1) =>
          hash_files_loop rest (hasher_update hasher contents) w1
      end
  end.

Definition hash_files (files : list string) (w : World)
    : result string * World :=
  match hash_files_loop files md5_new w with
  | (Raise e, w1) => (Raise e, w1)
  | (Ok hasher, w1) => (Ok (hasher_hexdigest hasher), w1)
  end.

(** ** The packager *)

(** [os.path.basename] *)
Fixpoint basename (p : string) : string :=
  match p with
  | EmptyString => EmptyString
  | String c p' =>
      if Py.str_in "/" p' then basename p'
      else if Ascii.eqb c "/" then p' else p
  end.

(** The [for ninja_file in ninja_files: zf.write(...)] loop; [entries] are the
    members written so far. *)
Fixpoint zip_loop `{Platform} (out_dir : string) (ninja_files : list string)
    (entries : list (string * bytes)) (w : World)
    : result unit * list (string * bytes) * World :=
  match ninja_files with
  | [] => (Ok tt, entries, w)
  | ninja_file :: rest =>
      let arcname :=
        basename out_dir +:+ "/out/" +:+ relpath ninja_file out_dir in
      match read_file ninja_file w with
      | (Raise e, w1) => (Raise e, entries, w1)
      | (Ok contents, w1) =>
          zip_loop out_dir rest (entries ++ [(arcname, contents)]) w1
      end
  end.

Definition dist_dir_of (w : World) : string :=
  getenv w "DIST_DIR" (Py.path_join (getenv w "OUT_DIR" "out") "dist").

Definition dist_ninja_files `{Platform} (out_dir zip_name : string)
    (ninja_files : list string) (w : World) : result unit * World :=
  let dist_dir := dist_dir_of w in
  let zip_path := Py.path_join dist_dir zip_name in
  let w := write_file zip_path [] w in
  let '(r, entries, w) := zip_loop out_dir ninja_files [] w in
  (r, write_file zip_path (zip_bytes entries) w).

(** ** The orchestrator

    [os.makedirs] has no counterpart: the file system has no directories. *)

(** [open(os.path.join(out_dir, 'build.log'), 'r').read()] printed to the
    error stream, then [sys.exit('build failed')]. *)
Definition report_build_failure `{Platform} (out_dir : string) (w : World)
    : result unit * World :=
  match read_file (Py.path_join out_dir "build.log") w with
  | (Raise e, w1) => (Raise e, w1)
  | (Ok raw, w1) =>
      match read_text raw with
      | Raise e => (Raise e, w1)
      | Ok text => (Raise (SystemExit "build failed"), print_stderr text w1)
      end
  end.

Definition mismatch_message : string :=
  "ninja files were not deterministic! See disted determinism_test_files_1/2.zip".

Definition success_message : string :=
  "Success, ninja files were deterministic".

(** The part of [main] that follows the two builds. *)
Definition combined_ninja (out_dir : string) (p : Product) : string :=
  Py.path_join out_dir ("combined-" +:+ product p +:+ ".ninja").

Definition compare_trees `{Platform} (fuel : nat) (p : Product)
    (out_dir1 out_dir2 : string) (w : World) : option (result unit * World) :=
  let root1 := combined_ninja out_dir1 p in
  let root2 := combined_ninja out_dir2 p in
  match transitively_included_ninja_files fuel out_dir1 root1 ∅ w with
  | None => None
  | Some (Raise e, _, w) => Some (Raise e, w)
  | Some (Ok ninja_files1, _, w) =>
  match transitively_included_ninja_files fuel out_dir2 root2 ∅ w with
  | None => None
  | Some (Raise e, _, w) => Some (Raise e, w)
  | Some (Ok ninja_files2, _, w) =>
  match dist_ninja_files out_dir1 "determinism_test_files_1.zip" ninja_files1 w with
  | (Raise e, w) => Some (Raise e, w)
  | (Ok _, w) =>
  match dist_ninja_files out_dir2 "determinism_test_files_2.zip" ninja_files2 w with
  | (Raise e, w) => Some (Raise e, w)
  | (Ok _, w) =>
  match hash_files ninja_files1 w with
  | (Raise e, w) => Some (Raise e, w)
  | (Ok hash1, w) =>
  match hash_files ninja_files2 w with
  | (Raise e, w) => Some (Raise e, w)
  | (Ok hash2, w) =>
      if negb (String.eqb hash1 hash2) then
        Some (Raise (SystemExit mismatch_message), w)
      else Some (Ok tt, print_stdout success_message w)
  end end end end end end.

Definition main `{Platform} (fuel : nat) (w : World)
    : option (result unit * World) :=
  match setup w with
  | (Raise e, w) => Some (Raise e, w)
  | (Ok _, w) =>
  match new_Product "aosp_cf_x86_64_phone" "trunk_staging" "userdebug" with
  | Raise e => Some (Raise e, w)
  | Ok p =>
      let w := set_environ "TARGET_PRODUCT" "aosp_cf_x86_64_phone" w in
      let w := set_environ "TARGET_RELEASE" "trunk_staging" w in
      let w := set_environ "TARGET_BUILD_VARIANT" "userdebug" w in
      let out_dir1 :=
        Py.path_join (getenv w "OUT_DIR" "out") "determinism_test_out1" in
      let out_dir2 :=
        Py.path_join (getenv w "OUT_DIR" "out") "determinism_test_out2" in
      match run_builds p out_dir1 out_dir2 w with
      | (Raise e, w) => Some (Raise e, w)
      | (Ok (success1, success2), w) =>
          if negb success1 then Some (report_build_failure out_dir1 w)
          else if negb success2 then Some (report_build_failure out_dir2 w)
          else compare_trees fuel p out_dir1 out_dir2 w
      end
  end end.

(** [asyncio.run(main())] under the interpreter: the exit status of the
    process and the world it leaves.  [sys.exit] with a message prints the
    message to the error stream and exits with status 1. *)
Definition run_script `{Platform} (fuel : nat) (w : World) : option (Z * World) :=
  match main fuel w with
  | None => None
  | Some (Ok _, w) => Some (0, w)
  | Some (Raise (SystemExit msg), w) => Some (1, print_stderr msg w)
  | Some (Raise e, w) => Some (1, print_stderr (traceback e) w)
  end.

Definition first_line (s : bytes) : bytes := hd [] (split_lines s).

Definition include_kw : bytes := Py.b "include ".
Definition subninja_kw : bytes := Py.b "subninja ".

(** ** Sample trees *)

Definition file (name : string) (lines : list string) : string * bytes :=
  (name, Py.b (String.concat "" (map (λ l, l +:+ NL) lines))).

Definition diamond_files : gmap string bytes :=
  list_to_map
    [file "o/root.ninja" ["include out/b.ninja"; "subninja c.ninja"];
     file "o/b.ninja" ["rule b"; "include d.ninja"];
     file "o/c.ninja" ["include out/d.ninja"; "rule c"];
     file "o/d.ninja" ["rule d"]].

Definition world_of (f : gmap string bytes) : World := mkWorld f ∅ [] [] [].

Definition outcome_of {A S} (r : option (result A * S * World))
    : option (result A * list string) :=
  match r with
  | Some (a, _, w) => Some (a, reads w)
  | None => None
  end.

(** ** The include graph of a tree, as the specification speaks of it *)

Definition add_reads (new : list string) (w : World) : World :=
  mkWorld (files w) (environ w) (reads w ++ new) (stdout w) (stderr w).

(** The files a file refers to, re-rooted under the output directory, in
    the order of its directives. *)
Definition includes (fs : gmap string bytes) (out_dir file : string)
    : list string :=
  match fs !! file with
  | Some contents =>
      match find_subninjas_and_includes contents with
      | Ok sub_files => map (rejoin out_dir) sub_files
      | Raise _ => []
      end
  | None => []
  end.

(** Every file of the tree can be scanned and refers to files of the tree. *)
Definition well_formed (fs : gmap string bytes) (out_dir : string) : Prop :=
  ∀ file contents, fs !! file = Some contents →
    ∃ sub_files, find_subninjas_and_includes contents = Ok sub_files
      ∧ ∀ sub_file, sub_file ∈ sub_files → rejoin out_dir sub_file ∈ dom fs.

Definition first_unvisited (visited : gset string) (l : list string)
    : option string :=
  head (filter (λ p, p ∉ visited) l).

(** Depth-first discovery: the next file is the first include not visited
    yet of the most recently listed file that still has one. *)
Fixpoint discover (fs : gmap string bytes) (out_dir : string)
    (visited : gset string) (listed : list string) : option string :=
  match listed with
  | [] => None
  | file :: later =>
      match discover fs out_dir visited later with
      | Some next => Some next
      | None => first_unvisited visited (includes fs out_dir file)
      end
  end.

(** What one call of the resolver does to the registry and to the world:
    [new] are the files it opened, in order. *)
Definition resolve_basic (file : string) (seen : Seen) (w : World)
    (out : result (list string) * Seen * World) : Prop :=
  let '(r, seen', w') := out in
  ∃ new : list string,
    w' = add_reads new w
    ∧ NoDup new
    ∧ (∀ p, p ∈ new → (p ∉ dom seen) ∧ p ∈ dom (files w))
    ∧ dom seen' = dom seen ∪ list_to_set new
    ∧ match r with
      | Ok m => m = new ∧ head m = Some file
      | Raise _ => True
      end.

(** The files of the world that are not in the registry. *)
Definition unseen (w : World) (seen : Seen) : nat :=
  size (dom (files w) ∖ dom seen).

(** A list is in depth-first first-discovery order, starting from the
    visited set [visited]: every entry after the first is the one [discover]
    finds from the entries before it, and nothing is left to discover. *)
Definition discovery_order (fs : gmap string bytes) (out_dir : string)
    (visited : gset string) (m : list string) : Prop :=
  (∀ k, (0 < k < length m)%nat →
     discover fs out_dir (visited ∪ list_to_set (take k m)) (take k m)
     = m !! k)
  ∧ discover fs out_dir (visited ∪ list_to_set m) m = None.

Definition self_files : gmap string bytes :=
  list_to_map
    [file "o/root.ninja" ["include root.ninja"; "include out/a.ninja"];
     file "o/a.ninja" ["subninja out/root.ninja"; "include a.ninja"]].

Definition cycle_files : gmap string bytes :=
  list_to_map
    [file "o/a.ninja" ["include b.ninja"];
     file "o/b.ninja" ["include a.ninja"]].

(** [q] is included by [p]. *)
Definition edge (fs : gmap string bytes) (out_dir : string) (p q : string)
    : Prop :=
  q ∈ includes fs out_dir p.

(** No file reaches itself through one include or more. *)
Definition acyclic (fs : gmap string bytes) (out_dir : string) : Prop :=
  ∀ p, ¬ tc (edge fs out_dir) p p.

(** The bytes of the listed files, one after the other. *)
Definition contents_of (fs : gmap string bytes) (l : list string) : bytes :=
  concat (map (λ p, default [] (fs !! p)) l).

(** A platform for the sample runs: nothing to set up, both builds succeed
    and leave the world as it is, text is UTF-8, a path stands for its
    relative path, and an archive is its members' bytes one after the
    other. *)
Definition sample_platform : Platform := {|
  setup := λ w, (Ok tt, w);
  run_builds := λ _ _ _ w, (Ok (true, true), w);
  read_text := Py.decode;
  relpath := λ p _, p;
  zip_bytes := λ entries, concat (map snd entries);
  traceback := λ _, "Traceback (most recent call last)";
|}.

(** The member name the packager gives a file. *)
Definition arcname `{Platform} (out_dir ninja_file : string) : string :=
  basename out_dir +:+ "/out/" +:+ relpath ninja_file out_dir.

Definition zip_entries `{Platform} (fs : gmap string bytes) (out_dir : string)
    (l : list string) : list (string * bytes) :=
  map (λ p, (arcname out_dir p, default [] (fs !! p))) l.

Definition zip_path (w : World) (zip_name : string) : string :=
  Py.path_join (dist_dir_of w) zip_name.

(** The world after a tree has been packaged. *)
Definition packaged `{Platform} (out_dir zip_name : string)
    (l : list string) (w : World) : World :=
  let w0 := write_file (zip_path w zip_name) [] w in
  write_file (zip_path w zip_name)
    (zip_bytes (zip_entries (files w0) out_dir l)) (add_reads l w0).

Definition zip_name1 : string := "determinism_test_files_1.zip".
Definition zip_name2 : string := "determinism_test_files_2.zip".

(** The world in which [main] hashes the two manifests: both trees have been
    packaged. *)
Definition both_packaged `{Platform} (out_dir1 out_dir2 : string)
    (m1 m2 : list string) (w : World) : World :=
  packaged out_dir2 zip_name2 m2 (packaged out_dir1 zip_name1 m1 w).

(** The digest [main] computes for a manifest. *)
Definition manifest_digest (w : World) (m : list string) : string :=
  MD5.hexdigest (contents_of (files w) m).

(** What [main] does once both manifests are known. *)
Definition verdict `{Platform} (out_dir1 out_dir2 : string)
    (m1 m2 : list string) (w : World) : result unit * World :=
  let w4 := both_packaged out_dir1 out_dir2 m1 m2 w in
  let w6 := add_reads (m1 ++ m2) w4 in
  if String.eqb (manifest_digest w4 m1) (manifest_digest w4 m2)
  then (Ok tt, print_stdout success_message w6)
  else (Raise (SystemExit mismatch_message), w6).

(** The configuration [main] builds, the environment it sets, and the two
    output directories. *)
Definition the_product : Product :=
  mkProduct "aosp_cf_x86_64_phone" "trunk_staging" "userdebug".

Definition target_env (w : World) : World :=
  set_environ "TARGET_BUILD_VARIANT" "userdebug"
    (set_environ "TARGET_RELEASE" "trunk_staging"
       (set_environ "TARGET_PRODUCT" "aosp_cf_x86_64_phone" w)).

Definition out_dir1 (w : World) : string :=
  Py.path_join (getenv (target_env w) "OUT_DIR" "out") "determinism_test_out1".

Definition out_dir2 (w : World) : string :=
  Py.path_join (getenv (target_env w) "OUT_DIR" "out") "determinism_test_out2".

Definition build_log (out_dir : string) : string :=
  Py.path_join out_dir "build.log".

(** A platform whose first build fails and leaves a log. *)
Definition failing_platform : Platform := {|
  setup := λ w, (Ok tt, w);
  run_builds := λ _ o1 o2 w,
    (Ok (false, true),
     write_file (build_log o2) (Py.b "ok")
       (write_file (build_log o1) (Py.b "FAILED: soong bootstrap") w));
  read_text := Py.decode;
  relpath := λ p _, p;
  zip_bytes := λ entries, concat (map snd entries);
  traceback := λ _, "Traceback (most recent call last)";
|}.

Definition empty_world : World := mkWorld ∅ ∅ [] [] [].

(** Two trees that are byte for byte the same, and a pair that differs in
    one byte of a nested file. *)
Definition tree (out_dir d_rule : string) : list (string * bytes) :=
  [file (out_dir +:+ "/combined-aosp_cf_x86_64_phone.ninja")
     ["include out/b.ninja"; "subninja c.ninja"];
   file (out_dir +:+ "/b.ninja") ["rule b"; "include d.ninja"];
   file (out_dir +:+ "/c.ninja") ["include out/d.ninja"; "rule c"];
   file (out_dir +:+ "/d.ninja") [d_rule]].

Definition equal_trees : World :=
  world_of (list_to_map (tree "out/determinism_test_out1" "rule d"
                         ++ tree "out/determinism_test_out2" "rule d")).

Definition unequal_trees : World :=
  world_of (list_to_map (tree "out/determinism_test_out1" "rule d"
                         ++ tree "out/determinism_test_out2" "rule e")).

Definition manifest_of (out_dir : string) : list string :=
  [out_dir +:+ "/combined-aosp_cf_x86_64_phone.ninja"; out_dir +:+ "/b.ninja";
   out_dir +:+ "/d.ninja"; out_dir +:+ "/c.ninja"].

(** The exceptions a resolution can end with. *)
Definition resolution_error (e : exn) : Prop :=
  (∃ path, e = FileNotFoundError path)
  ∨ e = UnicodeDecodeError
  ∨ ∃ path,
      e = SystemExit
            ("includes/subninjas with variables are unsupported: " +:+ path).

Definition raw (name content : string) : string * bytes :=
  (name, Py.b content).

(** Two trees whose manifests hold the same bytes, cut into three files in
    the first tree and into two in the second. *)
Definition regrouped_trees : World :=
  world_of (list_to_map
    [raw "out/determinism_test_out1/combined-aosp_cf_x86_64_phone.ninja"
       ("include a.ninja" +:+ NL +:+ "#");
     raw "out/determinism_test_out1/a.ninja" ("include b.ninja" +:+ NL);
     raw "out/determinism_test_out1/b.ninja" "";
     raw "out/determinism_test_out2/combined-aosp_cf_x86_64_phone.ninja"
       ("include a.ninja" +:+ NL +:+ "#include b.ninja" +:+ NL);
     raw "out/determinism_test_out2/a.ninja" ""]).

(** A height for the files of the diamond: every include goes down. *)
Definition diamond_rank (p : string) : nat :=
  if decide (p = "o/root.ninja") then 2
  else if decide (p = "o/b.ninja") then 1
  else if decide (p = "o/c.ninja") then 1
  else 0.

(** Two equal trees of two files that include each other. *)
Definition cyclic_trees : World :=
  world_of (list_to_map
    [raw "out/determinism_test_out1/combined-aosp_cf_x86_64_phone.ninja"
       ("include a.ninja" +:+ NL);
     raw "out/determinism_test_out1/a.ninja"
       ("include out/combined-aosp_cf_x86_64_phone.ninja" +:+ NL);
     raw "out/determinism_test_out2/combined-aosp_cf_x86_64_phone.ninja"
       ("include a.ninja" +:+ NL);
     raw "out/determinism_test_out2/a.ninja"
       ("include out/combined-aosp_cf_x86_64_phone.ninja" +:+ NL)]).

(** The byte [$]. *)
Definition DOLLAR : byte := x24.

Definition unsupported : string :=
  "includes/subninjas with variables are unsupported: ".

(** A content with a directive path that holds a [$] after one that does not
    decode. *)
Definition undecodable_then_dollar : bytes :=
  Py.b "include " ++ [xff; Py.LF] ++ Py.b "include $a" ++ [Py.LF].




(** ** [get_top]

    The directory tree as [get_top] sees it: the working directory, as
    [os.getcwd()] gives it, and for every absolute path in normal form
    whether it names a regular file.  [get_top] only asks about paths
    that climb from the working directory through [..] and then go down
    to a fixed name, and the working directory the system reports has no
    symbolic link in it; so the system resolves them to the path
    [os.path.abspath] computes. *)
















(** * Properties *)

Example scan_example :
  find_subninjas_and_includes (Py.b ("include foo.ninja" +:+ NL))
  = Ok ["foo.ninja"%string].
Proof. vm_compute. reflexivity. Qed.

Example scan_example2 :
  find_subninjas_and_includes
    (Py.b ("subninja out/a.ninja" +:+ NL +:+ "rule x" +:+ NL
           +:+ "include b c" +:+ String "013" NL +:+ " include z" +:+ NL
           +:+ "subninja last"))
  = Ok ["out/a.ninja"; "b c"; "last"]%string.
Proof. vm_compute. reflexivity. Qed.

Example product_ok :
  new_Product "aosp_cf_x86_64_phone" "trunk_staging" "userdebug"
  = Ok (mkProduct "aosp_cf_x86_64_phone" "trunk_staging" "userdebug").
Proof. vm_compute. reflexivity. Qed.

Example product_bogus :
  is_ok (new_Product "aosp_cf_x86_64_phone" "trunk_staging" "bogus") = true.
Proof. vm_compute. reflexivity. Qed.

(** ** Results *)

Lemma traverse_app {A B} (f : A → result B) (l1 l2 : list A) :
  traverse f (l1 ++ l2)
  = try x <- traverse f l1; try y <- traverse f l2; Ok (x ++ y).
Proof.
  induction l1 as [|a l1 IH]; simpl.
  - destruct (traverse f l2); reflexivity.
  - destruct (f a); simpl; [|reflexivity].
    rewrite IH. destruct (traverse f l1); simpl; [|reflexivity].
    destruct (traverse f l2); reflexivity.
Qed.

Lemma traverse_ext {A B} (f g : A → result B) (l : list A) :
  (∀ x, x ∈ l → f x = g x) → traverse f l = traverse g l.
Proof.
  induction l as [|a l IH]; intros H; simpl; [reflexivity|].
  rewrite (H a) by left. rewrite IH; [reflexivity|].
  intros x Hx. apply H. by right.
Qed.

(** ** Byte strings *)

Lemma byte_eqb_eq (x y : byte) : Byte.eqb x y = true ↔ x = y.
Proof. split; [apply Byte.byte_dec_bl | apply Byte.byte_dec_lb]. Qed.

Lemma byte_eqb_refl (x : byte) : Byte.eqb x x = true.
Proof. by apply byte_eqb_eq. Qed.

Lemma byte_eqb_neq (x y : byte) : Byte.eqb x y = false ↔ x ≠ y.
Proof.
  split.
  - apply Byte.eqb_false.
  - intros H. destruct (Byte.eqb x y) eqn:E; [|reflexivity].
    by apply byte_eqb_eq in E.
Qed.

Lemma startswith_spec (s p : bytes) :
  Py.startswith s p = true ↔ ∃ t, s = p ++ t.
Proof.
  revert s. induction p as [|c p IH]; intros s; simpl.
  - split; [by exists s|done].
  - destruct s as [|d s].
    + split; [done|]. intros [t Ht]. discriminate.
    + rewrite andb_true_iff, byte_eqb_eq, IH. split.
      * intros [-> [t ->]]. eauto.
      * intros [t Ht]. injection Ht as -> ->. eauto.
Qed.

Lemma startswith_app_l (p t : bytes) : Py.startswith (p ++ t) p = true.
Proof. apply startswith_spec. eauto. Qed.

Lemma startswith_app (s p q : bytes) :
  Py.startswith s (p ++ q)
  = Py.startswith s p && Py.startswith (drop (length p) s) q.
Proof.
  revert s. induction p as [|c p IH]; intros s; simpl.
  - by rewrite drop_0.
  - destruct s as [|d s]; [reflexivity|].
    simpl. rewrite IH. by rewrite andb_assoc.
Qed.

(** ** Lines *)

Lemma split_lines_decomp (s : bytes) :
  split_lines s = first_line s :: tl (split_lines s).
Proof.
  unfold first_line. destruct s as [|c s]; simpl; [reflexivity|].
  destruct (Byte.eqb c Py.LF); [reflexivity|].
  destruct (split_lines s); reflexivity.
Qed.

Lemma split_lines_LF (s : bytes) :
  split_lines (Py.LF :: s) = [] :: split_lines s.
Proof. reflexivity. Qed.

Lemma split_lines_other (c : byte) (s : bytes) :
  c ≠ Py.LF →
  split_lines (c :: s) = (c :: first_line s) :: tl (split_lines s).
Proof.
  intros Hc. simpl. apply byte_eqb_neq in Hc. rewrite Hc.
  by rewrite (split_lines_decomp s).
Qed.

Lemma split_lines_app (w s : bytes) :
  Forall (λ c, c ≠ Py.LF) w →
  split_lines (w ++ s) = (w ++ first_line s) :: tl (split_lines s).
Proof.
  induction 1 as [|c w Hc Hw IH]; simpl app.
  - apply split_lines_decomp.
  - rewrite split_lines_other by done.
    unfold first_line at 1. rewrite IH. reflexivity.
Qed.

Lemma first_line_app (w s : bytes) :
  Forall (λ c, c ≠ Py.LF) w → first_line (w ++ s) = w ++ first_line s.
Proof. intros H. unfold first_line at 1. by rewrite split_lines_app. Qed.

Lemma startswith_first_line (s w : bytes) :
  Forall (λ c, c ≠ Py.LF) w →
  Py.startswith (first_line s) w = Py.startswith s w.
Proof.
  revert s. induction w as [|c w IH]; intros s Hw; [reflexivity|].
  inversion Hw as [|? ? Hc Hw']; subst.
  destruct s as [|d s]; [reflexivity|].
  simpl Py.startswith at 2.
  destruct (Byte.eqb c d) eqn:E.
  - apply byte_eqb_eq in E. subst d.
    unfold first_line. rewrite split_lines_other by done. simpl.
    by rewrite byte_eqb_refl, IH.
  - destruct (decide (d = Py.LF)) as [->|Hd].
    + reflexivity.
    + unfold first_line. rewrite split_lines_other by done. simpl.
      by rewrite E.
Qed.

Lemma find_at_LF (s : bytes) (pos : Z) :
  (Py.find_at [Py.LF] s pos = -1 ∧ first_line s = s)
  ∨ (Py.find_at [Py.LF] s pos = pos + Py.len (first_line s)
     ∧ take (length (first_line s)) s = first_line s
     ∧ (length (first_line s) < length s)%nat).
Proof.
  revert pos. induction s as [|c s IH]; intros pos.
  - left. split; reflexivity.
  - simpl Py.find_at. rewrite andb_true_r. destruct (Byte.eqb Py.LF c) eqn:E.
    + apply byte_eqb_eq in E. subst c. right.
      unfold first_line, Py.len. simpl. repeat split; lia.
    + apply byte_eqb_neq in E.
      assert (Hc : c ≠ Py.LF) by congruence.
      unfold first_line. rewrite split_lines_other by done. simpl hd.
      destruct (IH (pos + 1)) as [[H1 H2]|(H1 & H2 & H3)].
      * left. rewrite H1. split; [reflexivity|]. by rewrite H2.
      * right. rewrite H1. unfold Py.len. simpl length.
        split_and!; [lia| |lia]. simpl. by rewrite H2.
Qed.

Lemma strip_trailing_cr_snoc (l : bytes) (c : byte) :
  strip_trailing_cr (l ++ [c])
  = l ++ (if Byte.eqb c Py.CR then [] else [c]).
Proof.
  induction l as [|d l IH]; [reflexivity|].
  change ((d :: l) ++ [c]) with (d :: (l ++ [c])).
  destruct (l ++ [c]) as [|e r] eqn:E.
  - by destruct l.
  - simpl strip_trailing_cr at 1. simpl in IH. rewrite IH. reflexivity.
Qed.

Lemma removesuffix_CR (l : bytes) :
  Py.removesuffix l [Py.CR] = strip_trailing_cr l.
Proof.
  destruct l as [|c l _] using rev_ind; [reflexivity|].
  rewrite strip_trailing_cr_snoc. unfold Py.removesuffix.
  rewrite length_app. simpl length.
  replace (length l + 1 - 1)%nat with (length l) by lia.
  rewrite drop_app_length, take_app_length.
  replace (1 <=? length l + 1)%nat with true
    by (symmetry; apply Nat.leb_le; lia).
  simpl. rewrite andb_true_r.
  destruct (Byte.eqb Py.CR c) eqn:E.
  - apply byte_eqb_eq in E. subst c. simpl. by rewrite app_nil_r.
  - apply byte_eqb_neq in E.
    assert (E' : Byte.eqb c Py.CR = false) by (apply byte_eqb_neq; congruence).
    by rewrite E'.
Qed.

(** The path the code extracts at the end of a keyword is the rest of that
    line. *)
Lemma get_path_from_directive_line (pre s : bytes) :
  get_path_from_directive (pre ++ s) (Py.len pre)
  = checked_path (strip_trailing_cr (first_line s)).
Proof.
  unfold get_path_from_directive, checked_path.
  rewrite <- removesuffix_CR. f_equal.
  assert (Hfind : Py.find (pre ++ s) [Py.LF] (Py.len pre)
                  = Py.find_at [Py.LF] s (Py.len pre)).
  { unfold Py.find, Py.len. rewrite length_app.
    replace (Z.of_nat (length pre) <? 0) with false
      by (symmetry; apply Z.ltb_ge; lia).
    replace (Z.of_nat (length pre + length s) <? Z.of_nat (length pre))
      with false by (symmetry; apply Z.ltb_ge; lia).
    rewrite Nat2Z.id. by rewrite drop_app_length. }
  rewrite Hfind.
  destruct (find_at_LF s (Py.len pre)) as [[H1 H2]|(H1 & H2 & H3)];
    rewrite H1.
  - simpl. unfold Py.slice_from, Py.clamp, Py.len. rewrite length_app.
    replace (Z.of_nat (length pre) <? 0) with false
      by (symmetry; apply Z.ltb_ge; lia).
    rewrite Z.min_l by lia. rewrite Nat2Z.id, drop_app_length.
    by rewrite H2.
  - replace (Py.len pre + Py.len (first_line s) <? 0) with false
      by (symmetry; apply Z.ltb_ge; unfold Py.len; lia).
    unfold Py.slice, Py.clamp, Py.len. rewrite length_app.
    replace (Z.of_nat (length pre) <? 0) with false
      by (symmetry; apply Z.ltb_ge; lia).
    replace (Z.of_nat (length pre) + Z.of_nat (length (first_line s)) <? 0)
      with false by (symmetry; apply Z.ltb_ge; lia).
    rewrite !Z.min_l by lia.
    replace (Z.to_nat (Z.of_nat (length pre) + Z.of_nat (length (first_line s))
                       - Z.of_nat (length pre)))
      with (length (first_line s)) by lia.
    rewrite Nat2Z.id, drop_app_length. by rewrite H2.
Qed.

(** ** The matcher on literal words *)

Lemma run_lit {R} (w s : bytes) (k : bytes → option R) :
  Re.run (Re.lit Byte.eqb w) s k
  = if Py.startswith s w then k (drop (length w) s) else None.
Proof.
  revert s. induction w as [|c w IH]; intros s; simpl.
  - by rewrite drop_0.
  - destruct s as [|d s]; [reflexivity|].
    destruct (Byte.eqb c d); simpl; [apply IH|reflexivity].
Qed.

Lemma match_directive (s : bytes) :
  Re.match_ SUBNINJA_OR_INCLUDE_REGEX s
  = if Py.startswith s (Py.LF :: include_kw) then Some (drop 9 s)
    else if Py.startswith s (Py.LF :: subninja_kw) then Some (drop 10 s)
    else None.
Proof.
  unfold Re.match_, SUBNINJA_OR_INCLUDE_REGEX.
  cbn [Re.run]. rewrite run_lit.
  change (Py.LF :: include_kw) with ([Py.LF] ++ Py.b "include" ++ Py.b " ").
  change (Py.LF :: subninja_kw) with ([Py.LF] ++ Py.b "subninja" ++ Py.b " ").
  rewrite !startswith_app.
  change (Py.b (String "010" "")) with [Py.LF].
  destruct (Py.startswith s [Py.LF]); [|reflexivity].
  rewrite !run_lit, !drop_drop. simpl length.
  rewrite !andb_true_l.
  destruct (Py.startswith (drop 1 s) (Py.b "include")),
    (Py.startswith (drop (1 + 7) s) (Py.b " ")),
    (Py.startswith (drop 1 s) (Py.b "subninja")),
    (Py.startswith (drop (1 + 8) s) (Py.b " ")); reflexivity.
Qed.

Lemma keyword_no_LF :
  Forall (λ c, c ≠ Py.LF) include_kw ∧ Forall (λ c, c ≠ Py.LF) subninja_kw.
Proof. split; repeat constructor; discriminate. Qed.

Lemma Forall_take_S {A} (P : A → Prop) (n : nat) (c : A) (s : list A) :
  Forall P (take (S n) (c :: s)) → P c ∧ Forall P (take n s).
Proof. simpl. intros H. by inversion H. Qed.

Lemma directive_of_line_include (l : bytes) :
  directive_of_line (include_kw ++ l) = Some (strip_trailing_cr l).
Proof. reflexivity. Qed.

Lemma directive_of_line_subninja (l : bytes) :
  directive_of_line (subninja_kw ++ l) = Some (strip_trailing_cr l).
Proof. reflexivity. Qed.

Lemma directive_of_line_first_line (s : bytes) :
  directive_of_line (first_line s)
  = if Py.startswith s include_kw
    then Some (strip_trailing_cr (drop 8 (first_line s)))
    else if Py.startswith s subninja_kw
         then Some (strip_trailing_cr (drop 9 (first_line s)))
         else None.
Proof.
  unfold directive_of_line.
  change (Py.b "include ") with include_kw.
  change (Py.b "subninja ") with subninja_kw.
  by rewrite !startswith_first_line by apply keyword_no_LF.
Qed.

(** One step of the scan at a keyword that follows a newline. *)
Lemma finditer_keyword (kw t pre : bytes) (n : nat) :
  Forall (λ c, c ≠ Py.LF) kw →
  n = S (length kw) →
  Re.match_ SUBNINJA_OR_INCLUDE_REGEX (Py.LF :: kw ++ t)
  = Some (drop n (Py.LF :: kw ++ t)) →
  (∀ k, Forall (λ c, c ≠ Py.LF) (take k (kw ++ t)) →
     traverse (λ m : Z * Z,
                 get_path_from_directive (pre ++ Py.LF :: kw ++ t) (snd m))
       (Re.finditer_from SUBNINJA_OR_INCLUDE_REGEX k (Py.len pre + 1) (kw ++ t))
     = traverse checked_path
         (omap directive_of_line (tl (split_lines (kw ++ t))))) →
  traverse (λ m : Z * Z,
              get_path_from_directive (pre ++ Py.LF :: kw ++ t) (snd m))
    (Re.finditer_from SUBNINJA_OR_INCLUDE_REGEX 0 (Py.len pre)
       (Py.LF :: kw ++ t))
  = try p <- checked_path (strip_trailing_cr (first_line t));
    try ps <- traverse checked_path (omap directive_of_line (tl (split_lines t)));
    Ok (p :: ps).
Proof.
  intros Hkw -> Hm Hshift.
  cbn [Re.finditer_from]. rewrite Hm.
  assert (Hn : (length (Py.LF :: kw ++ t)
                - length (drop (S (length kw)) (Py.LF :: kw ++ t)))%nat
               = S (length kw)).
  { rewrite length_drop. simpl. rewrite length_app. lia. }
  rewrite Hn. cbn [traverse snd].
  replace (Py.len pre + Z.of_nat (S (length kw)))
    with (Py.len (pre ++ Py.LF :: kw))
    by (unfold Py.len; rewrite length_app; simpl; lia).
  replace (pre ++ Py.LF :: kw ++ t) with ((pre ++ Py.LF :: kw) ++ t) at 1
    by (by rewrite <- app_assoc).
  rewrite get_path_from_directive_line.
  replace (S (length kw) - 1)%nat with (length kw) by lia.
  rewrite Hshift by (rewrite take_app_length; exact Hkw).
  by rewrite split_lines_app.
Qed.

(** The matches found from a position on are the directive lines that start
    after the next newline. *)
Lemma finditer_from_lines (pre s : bytes) (skip : nat) :
  Forall (λ c, c ≠ Py.LF) (take skip s) →
  traverse (λ m : Z * Z, get_path_from_directive (pre ++ s) (snd m))
    (Re.finditer_from SUBNINJA_OR_INCLUDE_REGEX skip (Py.len pre) s)
  = traverse checked_path (omap directive_of_line (tl (split_lines s))).
Proof.
  revert pre skip. induction s as [|c s IH]; intros pre skip Hskip.
  - destruct skip; reflexivity.
  - assert (Hshift : ∀ k,
      Forall (λ c, c ≠ Py.LF) (take k s) →
      traverse (λ m : Z * Z, get_path_from_directive (pre ++ c :: s) (snd m))
        (Re.finditer_from SUBNINJA_OR_INCLUDE_REGEX k (Py.len pre + 1) s)
      = traverse checked_path (omap directive_of_line (tl (split_lines s)))).
    { intros k Hk. specialize (IH (pre ++ [c]) k Hk).
      rewrite <- app_assoc in IH. simpl in IH.
      replace (Py.len (pre ++ [c])) with (Py.len pre + 1) in IH
        by (unfold Py.len; rewrite length_app; simpl; lia).
      exact IH. }
    destruct skip as [|skip].
    + pose proof (match_directive (c :: s)) as Hm.
      destruct (Py.startswith (c :: s) (Py.LF :: include_kw)) eqn:E1;
        [|destruct (Py.startswith (c :: s) (Py.LF :: subninja_kw)) eqn:E2].
      * apply startswith_spec in E1 as [t Ht].
        assert (c = Py.LF ∧ s = include_kw ++ t) as [-> ->]
          by (by inversion Ht).
        clear Ht.
        rewrite (finditer_keyword include_kw t pre 9);
          [|apply keyword_no_LF|reflexivity|exact Hm|exact Hshift].
        rewrite split_lines_LF. cbn [tl].
        rewrite split_lines_app by apply keyword_no_LF.
        cbn [omap list_omap]. rewrite directive_of_line_include.
        reflexivity.
      * apply startswith_spec in E2 as [t Ht].
        assert (c = Py.LF ∧ s = subninja_kw ++ t) as [-> ->]
          by (by inversion Ht).
        clear Ht.
        rewrite (finditer_keyword subninja_kw t pre 10);
          [|apply keyword_no_LF|reflexivity|exact Hm|exact Hshift].
        rewrite split_lines_LF. cbn [tl].
        rewrite split_lines_app by apply keyword_no_LF.
        cbn [omap list_omap]. rewrite directive_of_line_subninja.
        reflexivity.
      * cbn [Re.finditer_from]. rewrite Hm.
        rewrite Hshift by (by rewrite take_0).
        destruct (decide (c = Py.LF)) as [->|Hc].
        -- rewrite split_lines_LF. cbn [tl].
           rewrite (split_lines_decomp s). cbn [omap list_omap tl].
           rewrite directive_of_line_first_line.
           cbn [Py.startswith] in E1, E2. rewrite byte_eqb_refl in E1, E2.
           cbn [andb] in E1, E2. by rewrite E1, E2.
        -- by rewrite split_lines_other.
    + apply Forall_take_S in Hskip as [Hc Hskip].
      cbn [Re.finditer_from]. rewrite Hshift by done.
      by rewrite split_lines_other.
Qed.

Lemma split_lines_join (s : bytes) : join_lines (split_lines s) = s.
Proof.
  induction s as [|c s IH]; [reflexivity|].
  destruct (decide (c = Py.LF)) as [->|Hc].
  - rewrite split_lines_LF. rewrite (split_lines_decomp s) in *.
    simpl. simpl in IH. by rewrite IH.
  - rewrite split_lines_other by done.
    rewrite (split_lines_decomp s) in IH.
    destruct (tl (split_lines s)); simpl in *; by rewrite IH.
Qed.

Lemma split_lines_no_LF (s : bytes) :
  Forall (Forall (λ c, c ≠ Py.LF)) (split_lines s).
Proof.
  induction s as [|c s IH]; [by repeat constructor|].
  destruct (decide (c = Py.LF)) as [->|Hc].
  - rewrite split_lines_LF. by constructor.
  - rewrite split_lines_other by done.
    rewrite (split_lines_decomp s) in IH. inversion IH; subst.
    by repeat constructor.
Qed.

Lemma scan_head (contents : bytes) :
  (if Py.startswith contents (Py.b "include ") then
     try p <- get_path_from_directive contents (Py.len (Py.b "include "));
     Ok [p]
   else if Py.startswith contents (Py.b "subninja ") then
     try p <- get_path_from_directive contents (Py.len (Py.b "subninja "));
     Ok [p]
   else Ok [])
  = traverse checked_path
      (omap directive_of_line [first_line contents]).
Proof.
  cbn [omap list_omap]. rewrite directive_of_line_first_line.
  change (Py.b "include ") with include_kw.
  change (Py.b "subninja ") with subninja_kw.
  destruct (Py.startswith contents include_kw) eqn:E1;
    [|destruct (Py.startswith contents subninja_kw) eqn:E2];
    [| |reflexivity].
  - apply startswith_spec in E1 as [t ->].
    change (include_kw ++ t) with ([] ++ include_kw ++ t) at 1.
    rewrite app_assoc.
    change (Py.len include_kw) with (Py.len ([] ++ include_kw)).
    rewrite get_path_from_directive_line.
    rewrite first_line_app by apply keyword_no_LF.
    change 8%nat with (length include_kw). rewrite drop_app_length.
    cbn [app traverse]. by destruct (checked_path _).
  - apply startswith_spec in E2 as [t ->].
    change (subninja_kw ++ t) with ([] ++ subninja_kw ++ t) at 1.
    rewrite app_assoc.
    change (Py.len subninja_kw) with (Py.len ([] ++ subninja_kw)).
    rewrite get_path_from_directive_line.
    rewrite first_line_app by apply keyword_no_LF.
    change 9%nat with (length subninja_kw). rewrite drop_app_length.
    cbn [app traverse]. by destruct (checked_path _).
Qed.

Lemma find_subninjas_and_includes_lines (contents : bytes) :
  find_subninjas_and_includes contents
  = traverse checked_path (directive_paths contents).
Proof.
  unfold find_subninjas_and_includes, directive_paths.
  rewrite scan_head. unfold Re.finditer.
  pose proof (finditer_from_lines [] contents 0) as H.
  rewrite take_0 in H. specialize (H (Forall_nil_2 _)).
  simpl app in H. change (Py.len []) with 0 in H. rewrite H.
  generalize (split_lines_decomp contents).
  generalize (tl (split_lines contents)) (first_line contents).
  intros t f ->.
  change (f :: t) with ([f] ++ t).
  rewrite omap_app, traverse_app. reflexivity.
Qed.

Example md5_empty : MD5.hexdigest [] = "d41d8cd98f00b204e9800998ecf8427e"%string.
Proof. vm_compute. reflexivity. Qed.

Example md5_abc :
  MD5.hexdigest (Py.b "abc") = "900150983cd24fb0d6963f7d28e17f72"%string.
Proof. vm_compute. reflexivity. Qed.

Example md5_two_blocks :
  MD5.hexdigest (replicate 70 "a"%byte)
  = "0f5c6c4e740bfcc08c3c26ccb2673d46"%string.
Proof. vm_compute. reflexivity. Qed.

(** ** Reading files *)

Lemma add_reads_nil (w : World) : add_reads [] w = w.
Proof. destruct w. unfold add_reads. simpl. by rewrite app_nil_r. Qed.

Lemma add_reads_app (a b : list string) (w : World) :
  add_reads b (add_reads a w) = add_reads (a ++ b) w.
Proof. unfold add_reads. simpl. by rewrite app_assoc. Qed.

Lemma read_file_inv (path : string) (w w1 : World) (r : result bytes) :
  read_file path w = (r, w1) →
  (∃ contents, r = Ok contents ∧ files w !! path = Some contents
               ∧ w1 = add_reads [path] w)
  ∨ (r = Raise (FileNotFoundError path) ∧ files w !! path = None ∧ w1 = w).
Proof.
  unfold read_file. destruct (files w !! path) as [c|] eqn:E; intros [= <- <-].
  - left. by exists c.
  - by right.
Qed.

Lemma seen_has_true (seen : Seen) (key : string) :
  seen_has seen key = true ↔ key ∈ dom seen.
Proof.
  unfold seen_has. rewrite bool_decide_eq_true. symmetry. apply elem_of_dom.
Qed.

Lemma seen_has_false (seen : Seen) (key : string) :
  seen_has seen key = false ↔ key ∉ dom seen.
Proof.
  unfold seen_has. rewrite bool_decide_eq_false.
  apply not_iff_compat. symmetry. apply elem_of_dom.
Qed.

(** ** The resolver's loop, under an invariant *)

Section ResolveLoop.
Variable rec : string → Seen → World → option (result (list string) * Seen * World).
Variable out_dir : string.
Variable I : list string → list string → Seen → World → Prop.

Hypothesis I_skip : ∀ sub rest results seen w,
  I (sub :: rest) results seen w →
  rejoin out_dir sub ∈ dom seen →
  I rest results seen w.

Hypothesis I_step : ∀ sub rest results seen w more seen' w',
  I (sub :: rest) results seen w →
  rejoin out_dir sub ∉ dom seen →
  rec (rejoin out_dir sub) seen w = Some (Ok more, seen', w') →
  I rest (results ++ more) seen' w'.

Lemma resolve_loop_inv sub_files results seen w r seen' w' :
  I sub_files results seen w →
  resolve_loop rec out_dir sub_files results seen w = Some (r, seen', w') →
  match r with
  | Ok m => I [] m seen' w'
  | Raise e =>
      ∃ sub rest results0 seen0 w0,
        I (sub :: rest) results0 seen0 w0
        ∧ (rejoin out_dir sub ∉ dom seen0)
        ∧ rec (rejoin out_dir sub) seen0 w0 = Some (Raise e, seen', w')
  end.
Proof.
  revert results seen w.
  induction sub_files as [|sub rest IH]; intros results seen w HI; simpl.
  - intros [= <- <- <-]. exact HI.
  - destruct (seen_has seen (rejoin out_dir sub)) eqn:Hs.
    + apply seen_has_true in Hs. apply IH. by eapply I_skip.
    + apply seen_has_false in Hs.
      destruct (rec (rejoin out_dir sub) seen w)
        as [[[[more|e] seen1] w1]|] eqn:Hrec; [| |done].
      * apply IH. by eapply I_step.
      * intros [= <- <- <-]. by exists sub, rest, results, seen, w.
Qed.

End ResolveLoop.

(** ** The registry and the reads of the resolver *)

Lemma resolve_basic_extend (file : string) (seen seen1 seen2 : Seen)
    (w : World) (new more : list string) (r : result (list string)) (e : exn) :
  NoDup new →
  (∀ p, p ∈ new → (p ∉ dom seen) ∧ p ∈ dom (files w)) →
  dom seen1 = dom seen ∪ list_to_set new →
  resolve_basic file seen1 (add_reads new w) (r, seen2, add_reads more (add_reads new w)) →
  NoDup (new ++ more)
  ∧ (∀ p, p ∈ new ++ more → (p ∉ dom seen) ∧ p ∈ dom (files w))
  ∧ dom seen2 = dom seen ∪ list_to_set (new ++ more).
Proof.
  intros Hnd Hnew Hdom (more' & Hw & Hnd' & Hmore & Hdom' & _).
  assert (more' = more) as ->.
  { unfold add_reads in Hw. simpl in Hw. injection Hw as Hw.
    by apply app_inv_head in Hw. }
  split_and!.
  - apply NoDup_app. split_and!; [done| |done].
    intros p Hp Hp'. apply Hmore in Hp' as [Hp' _].
    apply Hp'. rewrite Hdom. set_solver.
  - intros p [Hp|Hp]%elem_of_app; [by apply Hnew|].
    apply Hmore in Hp as [Hp1 Hp2]. split; [|done].
    rewrite Hdom in Hp1. set_solver.
  - rewrite Hdom', Hdom, list_to_set_app_L. set_solver.
Qed.

Lemma transitively_included_basic (fuel : nat) (out_dir file : string)
    (seen : Seen) (w : World) out :
  file ∉ dom seen →
  transitively_included_ninja_files fuel out_dir file seen w = Some out →
  resolve_basic file seen w out.
Proof.
  revert file seen w out.
  induction fuel as [|fuel IH]; intros file seen w out Hfile; [done|].
  simpl. destruct (read_file file w) as [r w1] eqn:Hread.
  apply read_file_inv in Hread
    as [(contents & -> & Hc & ->)|(-> & Hc & ->)].
  2:{ intros [= <-]. exists []. rewrite add_reads_nil.
      split_and!; [done|constructor|set_solver|set_solver|done]. }
  assert (Hinit : NoDup [file]
            ∧ (∀ p, p ∈ [file] → (p ∉ dom seen) ∧ p ∈ dom (files w))
            ∧ dom (<[file:=true]> seen) = dom seen ∪ list_to_set [file]).
  { split_and!.
    - apply NoDup_singleton.
    - intros p ->%list_elem_of_singleton. split; [done|].
      apply elem_of_dom. eauto.
    - rewrite dom_insert_L. set_solver. }
  destruct Hinit as (Hnd0 & Hnew0 & Hdom0).
  destruct (find_subninjas_and_includes contents) as [sub_files|e].
  2:{ intros [= <-]. exists [file]. by split_and!. }
  intros Hloop. destruct out as [[r seen'] w'].
  pose (I := λ (_ results : list string) (seen_c : Seen) (w_c : World),
    ∃ new, w_c = add_reads new w ∧ NoDup new
      ∧ (∀ p, p ∈ new → (p ∉ dom seen) ∧ p ∈ dom (files w))
      ∧ dom seen_c = dom seen ∪ list_to_set new
      ∧ results = new ∧ head new = Some file).
  eapply (resolve_loop_inv _ out_dir I) in Hloop.
  - destruct r as [m|e].
    + destruct Hloop as (new & -> & ? & ? & ? & -> & ?). by exists new.
    + destruct Hloop as (sub & rest & results0 & seen0 & w0 & HI & Hsub & Hrec).
      destruct HI as (new & -> & Hnd & Hnew & Hdom & -> & Hhd).
      pose proof (IH _ _ _ _ Hsub Hrec) as Hb.
      assert (∃ more, w' = add_reads more (add_reads new w)) as [more ->].
      { destruct Hb as (more & -> & _). by exists more. }
      destruct (resolve_basic_extend _ _ _ _ _ _ _ _ e Hnd Hnew Hdom Hb)
        as (? & ? & ?).
      exists (new ++ more). by rewrite add_reads_app.
  - intros sub rest results seen_c w_c HI _. exact HI.
  - intros sub rest results seen_c w_c more seen1 w1 HI Hsub Hrec.
    destruct HI as (new & -> & Hnd & Hnew & Hdom & -> & Hhd).
    pose proof (IH _ _ _ _ Hsub Hrec) as Hb.
    assert (∃ more', w1 = add_reads more' (add_reads new w) ∧ more' = more)
      as (more' & -> & ->).
    { destruct Hb as (more' & -> & _ & _ & _ & -> & _). by exists more'. }
    destruct (resolve_basic_extend _ _ _ _ _ _ _ _ UnicodeDecodeError
                Hnd Hnew Hdom Hb) as (? & ? & ?).
    exists (new ++ more). rewrite add_reads_app. split_and!; try done.
    destruct new; [done|]. exact Hhd.
  - exists [file]. by split_and!.
Qed.

(** ** The resolver returns: recursion budget *)

Lemma resolve_loop_mono rec rec' out_dir sub_files results seen w out :
  (∀ file seen w out, rec file seen w = Some out → rec' file seen w = Some out) →
  resolve_loop rec out_dir sub_files results seen w = Some out →
  resolve_loop rec' out_dir sub_files results seen w = Some out.
Proof.
  intros Hrec. revert results seen w.
  induction sub_files as [|sub rest IH]; intros results seen w; simpl; [done|].
  destruct (seen_has seen (rejoin out_dir sub)); [apply IH|].
  destruct (rec (rejoin out_dir sub) seen w) as [[[[more|e] seen1] w1]|] eqn:E;
    [| |done]; rewrite (Hrec _ _ _ _ E); [apply IH|done].
Qed.

Lemma transitively_included_mono (n m : nat) out_dir file seen w out :
  (n ≤ m)%nat →
  transitively_included_ninja_files n out_dir file seen w = Some out →
  transitively_included_ninja_files m out_dir file seen w = Some out.
Proof.
  revert m file seen w out.
  induction n as [|n IH]; intros m file seen w out Hle; [done|].
  destruct m as [|m]; [lia|]. simpl.
  destruct (read_file file w) as [[contents|e] w1]; [|done].
  destruct (find_subninjas_and_includes contents) as [sub_files|e]; [|done].
  apply resolve_loop_mono. intros ????. apply IH. lia.
Qed.

Lemma unseen_mono (w : World) (seen seen' : Seen) :
  dom seen ⊆ dom seen' → (unseen w seen' ≤ unseen w seen)%nat.
Proof. intros H. apply subseteq_size. set_solver. Qed.

Lemma unseen_insert (w : World) (seen : Seen) (file : string) :
  file ∈ dom (files w) → file ∉ dom seen →
  (unseen w (<[file:=true]> seen) < unseen w seen)%nat.
Proof.
  intros H1 H2. apply subset_size. rewrite dom_insert_L.
  split; [set_solver|]. intros H. specialize (H file). set_solver.
Qed.

Lemma transitively_included_returns (fuel : nat) out_dir file seen w :
  file ∉ dom seen →
  (1 ≤ fuel)%nat →
  (file ∈ dom (files w) → (unseen w seen < fuel)%nat) →
  is_Some (transitively_included_ninja_files fuel out_dir file seen w).
Proof.
  revert file seen w.
  induction fuel as [|fuel IH]; intros file seen w Hfile Hone Hfuel; [lia|].
  simpl. destruct (read_file file w) as [r w1] eqn:Hread.
  apply read_file_inv in Hread
    as [(contents & -> & Hc & ->)|(-> & Hc & ->)]; [|eauto].
  destruct (find_subninjas_and_includes contents) as [sub_files|e]; [|eauto].
  assert (Hin : file ∈ dom (files w)) by (apply elem_of_dom; eauto).
  pose proof (unseen_insert w seen file Hin Hfile) as Hlt.
  specialize (Hfuel Hin).
  assert (Hbudget : (unseen w (<[file:=true]> seen) < fuel)%nat) by lia.
  clear Hlt Hfuel Hone Hc.
  enough (Hloop : ∀ sub_files seen_c w_c results,
            (unseen w seen_c < fuel)%nat → files w_c = files w →
            is_Some (resolve_loop
                       (transitively_included_ninja_files fuel out_dir)
                       out_dir sub_files results seen_c w_c))
    by (by apply Hloop).
  clear sub_files Hbudget. intros sub_files.
  induction sub_files as [|sub rest IHl]; intros seen_c w_c results Hb Hw;
    simpl; [eauto|].
  destruct (seen_has seen_c (rejoin out_dir sub)) eqn:Hs; [by apply IHl|].
  apply seen_has_false in Hs.
  assert (Hb' : (unseen w_c seen_c < fuel)%nat)
    by (unfold unseen in *; by rewrite Hw).
  destruct (IH (rejoin out_dir sub) seen_c w_c Hs) as [out Hout]; [lia|done|].
  rewrite Hout. destruct out as [[r seen1] w1].
  apply transitively_included_basic in Hout as (new & -> & _ & _ & Hdom & _);
    [|done].
  destruct r as [more|e]; [|eauto].
  apply IHl; [|done].
  eapply Nat.le_lt_trans; [|exact Hb].
  apply unseen_mono. rewrite Hdom. set_solver.
Qed.

(** ** Depth-first discovery *)

Lemma first_unvisited_None (V : gset string) (l : list string) :
  first_unvisited V l = None ↔ ∀ p, p ∈ l → p ∈ V.
Proof.
  unfold first_unvisited. induction l as [|c l IH]; [set_solver|].
  rewrite filter_cons. destruct (decide (c ∉ V)) as [Hc|Hc]; simpl.
  - split; [done|]. intros H. exfalso. apply Hc, H. left.
  - apply dec_stable in Hc. rewrite IH. set_solver.
Qed.

Lemma first_unvisited_Some (V : gset string) (l1 l2 : list string) (c : string) :
  (∀ p, p ∈ l1 → p ∈ V) → c ∉ V →
  first_unvisited V (l1 ++ c :: l2) = Some c.
Proof.
  intros H1 Hc. unfold first_unvisited.
  induction l1 as [|d l1 IH]; simpl.
  - rewrite filter_cons. by rewrite decide_True.
  - rewrite filter_cons. rewrite decide_False.
    + apply IH. intros p Hp. apply H1. by right.
    + intros Hd. apply Hd, H1. left.
Qed.

Lemma discover_app fs out_dir (V : gset string) (l1 l2 : list string) :
  discover fs out_dir V (l1 ++ l2)
  = match discover fs out_dir V l2 with
    | Some next => Some next
    | None => discover fs out_dir V l1
    end.
Proof.
  induction l1 as [|u l1 IH]; simpl.
  - by destruct (discover fs out_dir V l2).
  - rewrite IH. by destruct (discover fs out_dir V l2).
Qed.

Lemma discover_None fs out_dir (V : gset string) (l : list string) :
  discover fs out_dir V l = None
  ↔ ∀ u p, u ∈ l → p ∈ includes fs out_dir u → p ∈ V.
Proof.
  induction l as [|u l IH]; simpl; [set_solver|].
  destruct (discover fs out_dir V l) eqn:E.
  - split; [done|]. intros H.
    assert (Some s = None) as [=]. apply IH. intros ????. eapply H; [|done].
    by right.
  - rewrite first_unvisited_None. split.
    + intros H u' p [->|Hu]%elem_of_cons Hp; [by apply H|].
      by eapply (proj1 IH).
    + intros H p Hp. eapply H; [left|done].
Qed.

Lemma includes_scanned fs out_dir file contents sub_files :
  fs !! file = Some contents →
  find_subninjas_and_includes contents = Ok sub_files →
  includes fs out_dir file = map (rejoin out_dir) sub_files.
Proof. intros H1 H2. unfold includes. by rewrite H1, H2. Qed.

Lemma transitively_included_order (fuel : nat) (out_dir file : string)
    (seen seen' : Seen) (w w' : World) (m : list string) :
  file ∉ dom seen →
  transitively_included_ninja_files fuel out_dir file seen w
  = Some (Ok m, seen', w') →
  discovery_order (files w) out_dir (dom seen) m.
Proof.
  revert file seen seen' w w' m.
  induction fuel as [|fuel IH]; intros file seen seen' w w' m Hfile; [done|].
  simpl. destruct (read_file file w) as [r w1] eqn:Hread.
  apply read_file_inv in Hread
    as [(contents & -> & Hc & ->)|(-> & Hc & ->)]; [|done].
  destruct (find_subninjas_and_includes contents) as [sub_files|e] eqn:Hscan;
    [|done].
  pose proof (includes_scanned _ out_dir _ _ _ Hc Hscan) as Hincl.
  set (fs := files w) in *.
  pose (I := λ (rest results : list string) (seen_c : Seen) (w_c : World),
    ∃ visited acc,
      sub_files = visited ++ rest ∧ results = file :: acc
      ∧ files w_c = fs
      ∧ dom seen_c = dom seen ∪ list_to_set results
      ∧ (∀ d, d ∈ visited → rejoin out_dir d ∈ dom seen_c)
      ∧ (∀ k, (0 < k < length results)%nat →
           discover fs out_dir (dom seen ∪ list_to_set (take k results))
             (take k results) = results !! k)
      ∧ discover fs out_dir (dom seen_c) acc = None).
  intros Hloop. eapply (resolve_loop_inv _ out_dir I) in Hloop.
  - destruct Hloop as (visited & acc & Hsub & -> & Hw & Hdom & Hvis & Ha & Hb).
    rewrite app_nil_r in Hsub. subst visited.
    split; [exact Ha|]. rewrite <- Hdom.
    change (file :: acc) with ([file] ++ acc). rewrite discover_app, Hb.
    simpl. rewrite Hincl. apply first_unvisited_None.
    intros p (d & -> & Hd)%list_elem_of_fmap. by apply Hvis.
  - intros sub rest results seen_c w_c HI Hsub.
    destruct HI as (visited & acc & Hs & -> & Hw & Hdom & Hvis & Ha & Hb).
    exists (visited ++ [sub]), acc. rewrite <- app_assoc.
    split_and!; try done.
    intros d [Hd| ->%list_elem_of_singleton]%elem_of_app; [by apply Hvis|done].
  - intros sub rest results seen_c w_c more seen1 w1 HI Hsub Hrec.
    destruct HI as (visited & acc & Hs & -> & Hw & Hdom & Hvis & Ha & Hb).
    pose proof (transitively_included_basic _ _ _ _ _ _ Hsub Hrec)
      as (new & -> & Hnd & Hnew & Hdom1 & <- & Hhd).
    apply IH in Hrec as [Ha1 Hb1]; [|done]. rewrite Hw in Ha1, Hb1.
    exists (visited ++ [sub]), (acc ++ more). rewrite <- app_assoc.
    assert (Hsub1 : rejoin out_dir sub ∈ dom seen1).
    { rewrite Hdom1. destruct more as [|x more']; [done|].
      injection Hhd as ->. set_solver. }
    split_and!; try done.
    + rewrite Hdom1, Hdom.
      change (file :: acc ++ more) with ((file :: acc) ++ more).
      rewrite list_to_set_app_L. set_solver.
    + intros d [Hd| ->%list_elem_of_singleton]%elem_of_app; [|done].
      rewrite Hdom1. apply elem_of_union_l. by apply Hvis.
    + intros k Hk. rewrite length_app in Hk.
      destruct (decide (k < length (file :: acc))%nat) as [Hlt|Hge].
      * rewrite take_app_le by lia. rewrite lookup_app_l by done.
        apply Ha. lia.
      * rewrite take_app_ge by lia. rewrite lookup_app_r by lia.
        set (j := (k - length (file :: acc))%nat) in *.
        rewrite list_to_set_app_L, discover_app.
        rewrite (assoc_L (∪)), <- Hdom.
        destruct (decide (j = 0)%nat) as [->|Hj].
        -- rewrite take_0. simpl discover at 1.
           replace (dom seen_c ∪ list_to_set []) with (dom seen_c)
             by set_solver.
           change (file :: acc) with ([file] ++ acc).
           rewrite discover_app, Hb. simpl. rewrite Hincl, Hs, fmap_app.
           simpl. rewrite first_unvisited_Some; [|  |done].
           ++ destruct more; [done|]. by injection Hhd as ->.
           ++ intros p (d & -> & Hd)%list_elem_of_fmap. by apply Hvis.
        -- rewrite Ha1 by lia.
           destruct (lookup_lt_is_Some_2 more j) as [x Hx]; [lia|].
           by rewrite Hx.
    + apply discover_None. intros u p [Hu|Hu]%elem_of_app Hp.
      * rewrite Hdom1. apply elem_of_union_l.
        by eapply (proj1 (discover_None _ _ _ _) Hb).
      * rewrite Hdom1. by eapply (proj1 (discover_None _ _ _ _) Hb1).
  - exists [], []. split_and!; try done.
    + rewrite dom_insert_L. set_solver.
    + intros d Hd. by apply elem_of_nil in Hd.
    + intros k Hk. simpl in Hk. lia.
Qed.

(** ** A well-formed tree resolves without an exception *)

Lemma transitively_included_ok (fs : gmap string bytes) (fuel : nat)
    (out_dir file : string) (seen seen' : Seen) (w w' : World) (e : exn) :
  well_formed fs out_dir →
  files w = fs →
  file ∈ dom fs →
  file ∉ dom seen →
  transitively_included_ninja_files fuel out_dir file seen w
  ≠ Some (Raise e, seen', w').
Proof.
  intros Hwf. revert file seen seen' w w' e.
  induction fuel as [|fuel IH]; intros file seen seen' w w' e Hw Hin Hfile;
    [done|].
  simpl. destruct (read_file file w) as [r w1] eqn:Hread.
  apply read_file_inv in Hread
    as [(contents & -> & Hc & ->)|(-> & Hc & ->)].
  2:{ apply elem_of_dom in Hin as [? Hin]. congruence. }
  rewrite Hw in Hc. destruct (Hwf _ _ Hc) as (sub_files & -> & Hsubs).
  intros Hloop.
  pose (I := λ (rest _ : list string) (_ : Seen) (w_c : World),
    files w_c = fs ∧ ∀ d, d ∈ rest → rejoin out_dir d ∈ dom fs).
  eapply (resolve_loop_inv _ out_dir I) in Hloop.
  - destruct Hloop as (sub & rest & ? & seen0 & w0 & [Hw0 HI] & Hsub & Hrec).
    eapply IH; [exact Hw0| |exact Hsub|exact Hrec]. apply HI. left.
  - intros sub rest results seen_c w_c [Hwc HI] _.
    split; [done|]. intros d Hd. apply HI. by right.
  - intros sub rest results seen_c w_c more seen1 w1 [Hwc HI] Hsub Hrec.
    apply transitively_included_basic in Hrec as (new' & -> & _); [|done].
    split; [done|]. intros d Hd. apply HI. by right.
  - split; [done|]. exact Hsubs.
Qed.

(** C3. A top-level resolution with an empty registry returns, whatever the
    include graph: from a recursion budget of one more than the number of
    files on, the outcome is the same.  It opens no file twice, the registry
    it leaves is the set of the files it opened, and on a tree whose files all
    scan and refer to files of the tree it raises nothing.  A returned
    manifest is the list of the files opened: it has no repetition, starts
    with the root and is in depth-first first-discovery order.  On the
    diamond the shared file is listed once, and a self-referential tree
    resolves. *)
Theorem resolver_manifest_distinct_in_discovery_order :
  (∀ (out_dir root : string) (w : World),
     ∃ r seen' scanned,
       (∀ fuel, (size (files w) < fuel)%nat →
          transitively_included_ninja_files fuel out_dir root ∅ w
          = Some (r, seen', add_reads scanned w))
       ∧ NoDup scanned
       ∧ dom seen' = list_to_set scanned
       ∧ (well_formed (files w) out_dir → root ∈ dom (files w) →
          is_ok r = true)
       ∧ ∀ m, r = Ok m →
           m = scanned ∧ NoDup m ∧ head m = Some root
           ∧ discovery_order (files w) out_dir ∅ m)
  ∧ outcome_of (transitively_included_ninja_files 5 "o" "o/root.ninja" ∅
                  (world_of diamond_files))
    = Some (Ok ["o/root.ninja"; "o/b.ninja"; "o/d.ninja"; "o/c.ninja"],
            ["o/root.ninja"; "o/b.ninja"; "o/d.ninja"; "o/c.ninja"])%string
  ∧ outcome_of (transitively_included_ninja_files 3 "o" "o/root.ninja" ∅
                  (world_of self_files))
    = Some (Ok ["o/root.ninja"; "o/a.ninja"],
            ["o/root.ninja"; "o/a.ninja"])%string.
Proof.
  split; [|split; vm_compute; reflexivity].
  intros out_dir root w.
  assert (Hroot : root ∉ dom (∅ : Seen)) by set_solver.
  assert (Hsize : (unseen w ∅ ≤ size (files w))%nat).
  { unfold unseen. rewrite <- size_dom. apply subseteq_size. set_solver. }
  destruct (transitively_included_returns (S (size (files w))) out_dir root ∅ w)
    as [[[r seen'] w'] Hrun]; [done|lia|lia|].
  pose proof (transitively_included_basic _ _ _ _ _ _ Hroot Hrun)
    as (scanned & -> & Hnd & Hnew & Hdom & Hr).
  exists r, seen', scanned. split_and!.
  - intros fuel Hfuel. eapply transitively_included_mono; [|exact Hrun]. lia.
  - done.
  - rewrite Hdom. set_solver.
  - intros Hwf Hin. destruct r as [m|e]; [done|].
    by eapply transitively_included_ok in Hrun.
  - intros m ->. destruct Hr as [-> Hhd]. split_and!; try done.
    apply transitively_included_order in Hrun; [|done].
    by rewrite dom_empty_L in Hrun.
Qed.

(** ** [hash_files] and the packager on files that exist *)

Lemma hash_files_loop_present (l : list string) (hasher : Hasher) (w : World) :
  (∀ p, p ∈ l → p ∈ dom (files w)) →
  hash_files_loop l hasher w
  = (Ok (mkHasher (fed hasher ++ contents_of (files w) l)), add_reads l w).
Proof.
  revert hasher w. induction l as [|p l IH]; intros hasher w Hl; simpl.
  - unfold contents_of. simpl. rewrite app_nil_r, add_reads_nil.
    by destruct hasher.
  - unfold read_file.
    destruct (files w !! p) as [c|] eqn:Hp.
    all: change (add_read p w) with (add_reads [p] w).
    2:{ exfalso. assert (Hin : p ∈ dom (files w)) by (apply Hl; left).
        apply elem_of_dom in Hin as [? Hin]. congruence. }
    rewrite IH by (intros q Hq; apply Hl; by right).
    rewrite add_reads_app. simpl. unfold contents_of. simpl.
    by rewrite Hp, app_assoc.
Qed.

Lemma hash_files_loop_missing (l1 l2 : list string) (p : string)
    (hasher : Hasher) (w : World) :
  (∀ q, q ∈ l1 → q ∈ dom (files w)) →
  files w !! p = None →
  hash_files_loop (l1 ++ p :: l2) hasher w
  = (Raise (FileNotFoundError p), add_reads l1 w).
Proof.
  revert hasher w. induction l1 as [|q l1 IH]; intros hasher w Hl Hp; simpl.
  - unfold read_file. by rewrite Hp, add_reads_nil.
  - unfold read_file.
    destruct (files w !! q) as [c|] eqn:Hq.
    all: change (add_read q w) with (add_reads [q] w).
    2:{ exfalso. assert (Hin : q ∈ dom (files w)) by (apply Hl; left).
        apply elem_of_dom in Hin as [? Hin]. congruence. }
    rewrite IH; [by rewrite add_reads_app|  |done].
    intros q' Hq'. apply Hl. by right.
Qed.

Lemma hash_files_present (l : list string) (w : World) :
  (∀ p, p ∈ l → p ∈ dom (files w)) →
  hash_files l w
  = (Ok (MD5.hexdigest (contents_of (files w) l)), add_reads l w).
Proof.
  intros Hl. unfold hash_files. by rewrite hash_files_loop_present.
Qed.

Lemma zip_loop_present `{Platform} (out_dir : string) (l : list string)
    (entries : list (string * bytes)) (w : World) :
  (∀ p, p ∈ l → p ∈ dom (files w)) →
  zip_loop out_dir l entries w
  = (Ok tt, entries ++ zip_entries (files w) out_dir l, add_reads l w).
Proof.
  revert entries w. induction l as [|p l IH]; intros entries w Hl; simpl.
  - by rewrite app_nil_r, add_reads_nil.
  - unfold read_file.
    destruct (files w !! p) as [c|] eqn:Hp.
    all: change (add_read p w) with (add_reads [p] w).
    2:{ exfalso. assert (Hin : p ∈ dom (files w)) by (apply Hl; left).
        apply elem_of_dom in Hin as [? Hin]. congruence. }
    rewrite IH by (intros q Hq; apply Hl; by right).
    rewrite add_reads_app, <- app_assoc. simpl. unfold arcname.
    by rewrite ?Hp.
Qed.

Lemma dist_ninja_files_present `{Platform} (out_dir zip_name : string)
    (l : list string) (w : World) :
  (∀ p, p ∈ l → p ∈ dom (files w)) →
  dist_ninja_files out_dir zip_name l w
  = (Ok tt, packaged out_dir zip_name l w).
Proof.
  intros Hl. unfold dist_ninja_files, packaged.
  fold (zip_path w zip_name).
  rewrite zip_loop_present; [reflexivity|].
  intros p Hp. simpl. rewrite dom_insert_L. apply elem_of_union_r. by apply Hl.
Qed.

Lemma packaged_dom `{Platform} (out_dir zip_name : string)
    (l : list string) (w : World) :
  dom (files (packaged out_dir zip_name l w))
  = {[zip_path w zip_name]} ∪ dom (files w).
Proof. unfold packaged. simpl. rewrite !dom_insert_L. set_solver. Qed.

Lemma packaged_environ `{Platform} (out_dir zip_name : string)
    (l : list string) (w : World) :
  environ (packaged out_dir zip_name l w) = environ w.
Proof. reflexivity. Qed.

Lemma zip_path_packaged `{Platform} (out_dir zip_name name : string)
    (l : list string) (w : World) :
  zip_path (packaged out_dir zip_name l w) name = zip_path w name.
Proof. reflexivity. Qed.

Lemma both_packaged_dom `{Platform} (out_dir1 out_dir2 : string)
    (m1 m2 : list string) (w : World) :
  dom (files (both_packaged out_dir1 out_dir2 m1 m2 w))
  = {[zip_path w zip_name1; zip_path w zip_name2]} ∪ dom (files w).
Proof.
  unfold both_packaged. rewrite !packaged_dom, zip_path_packaged. set_solver.
Qed.

(** [main] after two resolutions that return. *)
Lemma compare_trees_resolved `{Platform} (fuel : nat) (p : Product)
    (out_dir1 out_dir2 : string) (w w1 w2 : World) (s1 s2 : Seen)
    (m1 m2 : list string) :
  transitively_included_ninja_files fuel out_dir1
    (combined_ninja out_dir1 p) ∅ w = Some (Ok m1, s1, w1) →
  transitively_included_ninja_files fuel out_dir2
    (combined_ninja out_dir2 p) ∅ w1 = Some (Ok m2, s2, w2) →
  compare_trees fuel p out_dir1 out_dir2 w
  = Some (verdict out_dir1 out_dir2 m1 m2 w2).
Proof.
  intros H1 H2. unfold compare_trees. rewrite H1, H2.
  apply transitively_included_basic in H1
    as (n1 & -> & _ & Hn1 & _ & <- & _); [|set_solver].
  apply transitively_included_basic in H2
    as (n2 & -> & _ & Hn2 & _ & <- & _); [|set_solver].
  set (w2 := add_reads m2 (add_reads m1 w)).
  assert (Hm1 : ∀ q, q ∈ m1 → q ∈ dom (files w2))
    by (intros q Hq; exact (proj2 (Hn1 q Hq))).
  assert (Hm2 : ∀ q, q ∈ m2 → q ∈ dom (files w2))
    by (intros q Hq; exact (proj2 (Hn2 q Hq))).
  rewrite dist_ninja_files_present by done.
  rewrite dist_ninja_files_present
    by (intros q Hq; rewrite packaged_dom; apply elem_of_union_r;
        by apply Hm2).
  fold zip_name1 zip_name2.
  change (packaged out_dir2 zip_name2 m2 (packaged out_dir1 zip_name1 m1 w2))
    with (both_packaged out_dir1 out_dir2 m1 m2 w2).
  set (w4 := both_packaged out_dir1 out_dir2 m1 m2 w2).
  assert (Hm1' : ∀ q, q ∈ m1 → q ∈ dom (files w4)).
  { intros q Hq. unfold w4. rewrite both_packaged_dom.
    apply elem_of_union_r. by apply Hm1. }
  assert (Hm2' : ∀ q, q ∈ m2 → q ∈ dom (files w4)).
  { intros q Hq. unfold w4. rewrite both_packaged_dom.
    apply elem_of_union_r. by apply Hm2. }
  rewrite hash_files_present by done.
  rewrite hash_files_present by done.
  unfold verdict. fold w4. unfold manifest_digest. simpl files.
  rewrite add_reads_app.
  by destruct (String.eqb _ _).
Qed.

(** ** The orchestrator *)

Lemma main_after_builds `{Platform} (fuel : nat) (w w0 w1 : World)
    (success1 success2 : bool) :
  setup w = (Ok tt, w0) →
  run_builds the_product (out_dir1 w0) (out_dir2 w0) (target_env w0)
  = (Ok (success1, success2), w1) →
  main fuel w
  = if negb success1 then Some (report_build_failure (out_dir1 w0) w1)
    else if negb success2 then Some (report_build_failure (out_dir2 w0) w1)
    else compare_trees fuel the_product (out_dir1 w0) (out_dir2 w0) w1.
Proof.
  intros Hsetup Hbuilds. unfold main. rewrite Hsetup.
  change (new_Product "aosp_cf_x86_64_phone" "trunk_staging" "userdebug")
    with (Ok the_product).
  fold (target_env w0). fold (out_dir1 w0). fold (out_dir2 w0).
  cbv iota beta. by rewrite Hbuilds.
Qed.

Lemma report_build_failure_spec `{Platform} (out_dir : string) (w : World) :
  ∃ e w',
    report_build_failure out_dir w = (Raise e, w')
    ∧ files w' = files w ∧ stdout w' = stdout w
    ∧ (reads w' = reads w ∨ reads w' = reads w ++ [build_log out_dir])
    ∧ ∀ raw text,
        files w !! build_log out_dir = Some raw → read_text raw = Ok text →
        e = SystemExit "build failed"
        ∧ reads w' = reads w ++ [build_log out_dir]
        ∧ stderr w' = stderr w ++ [text +:+ NL].
Proof.
  unfold report_build_failure. fold (build_log out_dir). unfold read_file.
  destruct (files w !! build_log out_dir) as [raw|] eqn:Hraw.
  - destruct (read_text raw) as [text|e] eqn:Htext.
    + eexists _, _. split_and!; [done..|by right|].
      intros ?? [= <-] Ht. rewrite Htext in Ht. by injection Ht as <-.
    + eexists _, _. split_and!; [done..|by right|].
      intros ?? [= <-] Ht. congruence.
  - eexists _, _. split_and!; [done..|by left|]. intros ?? [=].
Qed.

(** C7. [main] branches on the pair of flags that the joint wait for the two
    builds returns.  When a flag is false, [main] raises without using any
    recursion budget, so no resolution runs: the files and the standard
    output are as the builds left them, and nothing but the log of the first
    failed build has been opened.  The process exits with status 1; when that
    log can be read as text, the text is printed to the error stream as it was
    read, followed by the message of [sys.exit]. *)
Theorem failed_build_reported_before_resolution `{Platform}
    (fuel : nat) (w w0 w1 : World) (success1 success2 : bool) :
  setup w = (Ok tt, w0) →
  run_builds the_product (out_dir1 w0) (out_dir2 w0) (target_env w0)
  = (Ok (success1, success2), w1) →
  success1 && success2 = false →
  let failed := if success1 then out_dir2 w0 else out_dir1 w0 in
  ∃ e w',
    main fuel w = Some (Raise e, w')
    ∧ main 0 w = Some (Raise e, w')
    ∧ files w' = files w1
    ∧ stdout w' = stdout w1
    ∧ (reads w' = reads w1 ∨ reads w' = reads w1 ++ [build_log failed])
    ∧ (∃ wf, run_script fuel w = Some (1, wf))
    ∧ ∀ raw text,
        files w1 !! build_log failed = Some raw → read_text raw = Ok text →
        e = SystemExit "build failed"
        ∧ reads w' = reads w1 ++ [build_log failed]
        ∧ stderr w' = stderr w1 ++ [text +:+ NL]
        ∧ run_script fuel w = Some (1, print_stderr "build failed" w').
Proof.
  intros Hsetup Hbuilds Hfail failed.
  destruct (report_build_failure_spec failed w1)
    as (e & w' & Hrep & Hfiles & Hout & Hreads & Hlog).
  assert (Hmain : ∀ n, main n w = Some (Raise e, w')).
  { intros n. rewrite (main_after_builds n w w0 w1 success1 success2) by done.
    subst failed. destruct success1; simpl in *; [subst success2|];
      simpl; by rewrite Hrep. }
  exists e, w'. split_and!; try done.
  - unfold run_script. rewrite Hmain. destruct e; eauto.
  - intros raw text Hraw Htext.
    destruct (Hlog raw text Hraw Htext) as (-> & ? & ?).
    split_and!; try done. unfold run_script. by rewrite Hmain.
Qed.

Lemma failed_build_reported_witness :
  ∃ e w',
    @main failing_platform 0 empty_world = Some (Raise e, w')
    ∧ files w' !! "out/dist/determinism_test_files_1.zip"%string = None
    ∧ reads w' = ["out/determinism_test_out1/build.log"%string]
    ∧ stderr w' = ["FAILED: soong bootstrap" +:+ NL].
Proof.
  destruct (@failed_build_reported_before_resolution failing_platform
              0 empty_world empty_world
              (write_file "out/determinism_test_out2/build.log" (Py.b "ok")
                 (write_file "out/determinism_test_out1/build.log"
                    (Py.b "FAILED: soong bootstrap") (target_env empty_world)))
              false true eq_refl eq_refl eq_refl)
    as (e & w' & Hmain & _ & Hfiles & _ & _ & _ & Hlog).
  destruct (Hlog (Py.b "FAILED: soong bootstrap") "FAILED: soong bootstrap"%string
              eq_refl eq_refl) as (_ & Hreads & Herr & _).
  exists e, w'. split_and!; [exact Hmain| |exact Hreads|exact Herr].
  rewrite Hfiles. reflexivity.
Defined.

Lemma equal_trees_resolve1 :
  @transitively_included_ninja_files 5 "out/determinism_test_out1"
    (combined_ninja "out/determinism_test_out1" the_product) ∅
    (target_env equal_trees)
  = Some (Ok (manifest_of "out/determinism_test_out1"),
          list_to_map (map (λ p, (p, true))
                         (manifest_of "out/determinism_test_out1")),
          add_reads (manifest_of "out/determinism_test_out1")
            (target_env equal_trees)).
Proof. vm_compute. reflexivity. Qed.

Lemma manifest_present (fuel : nat) (out_dir root : string)
    (w w' : World) (seen' : Seen) (m : list string) :
  transitively_included_ninja_files fuel out_dir root ∅ w
  = Some (Ok m, seen', w') →
  w' = add_reads m w ∧ NoDup m ∧ ∀ q, q ∈ m → q ∈ dom (files w).
Proof.
  intros Hr. apply transitively_included_basic in Hr
    as (new & -> & Hnd & Hnew & _ & <- & _); [|set_solver].
  split_and!; [done..|]. intros q Hq. by apply Hnew.
Qed.

(** C9. Once both builds have succeeded and both trees have resolved, the
    process exits with status 0 exactly when the two digests that
    [hash_files] returns are equal.  In that case it prints the one line of
    confirmation to the standard output and nothing to the error stream;
    otherwise it prints nothing to the standard output, exits with status 1
    and its message names the archives by their common stem followed by
    [1/2.zip]. *)
Theorem exit_status_reflects_digest_comparison `{Platform}
    (fuel : nat) (w w0 w1 w2 w3 : World) (s1 s2 : Seen)
    (m1 m2 : list string) :
  setup w = (Ok tt, w0) →
  run_builds the_product (out_dir1 w0) (out_dir2 w0) (target_env w0)
  = (Ok (true, true), w1) →
  transitively_included_ninja_files fuel (out_dir1 w0)
    (combined_ninja (out_dir1 w0) the_product) ∅ w1 = Some (Ok m1, s1, w2) →
  transitively_included_ninja_files fuel (out_dir2 w0)
    (combined_ninja (out_dir2 w0) the_product) ∅ w2 = Some (Ok m2, s2, w3) →
  let w4 := both_packaged (out_dir1 w0) (out_dir2 w0) m1 m2 w3 in
  ∃ hash1 hash2 code w',
    hash_files m1 w4 = (Ok hash1, add_reads m1 w4)
    ∧ hash_files m2 (add_reads m1 w4) = (Ok hash2, add_reads (m1 ++ m2) w4)
    ∧ run_script fuel w = Some (code, w')
    ∧ (code = 0 ↔ hash1 = hash2)
    ∧ (hash1 = hash2 →
       code = 0 ∧ stdout w' = stdout w3 ++ [success_message +:+ NL]
       ∧ stderr w' = stderr w3)
    ∧ (hash1 ≠ hash2 →
       code = 1 ∧ stdout w' = stdout w3
       ∧ stderr w' = stderr w3 ++ [mismatch_message +:+ NL])
    ∧ ∃ stem,
        zip_name1 = stem +:+ "1.zip" ∧ zip_name2 = stem +:+ "2.zip"
        ∧ mismatch_message
          = "ninja files were not deterministic! See disted "
            +:+ stem +:+ "1/2.zip".
Proof.
  intros Hsetup Hbuilds Hr1 Hr2 w4.
  pose proof (main_after_builds fuel w w0 w1 true true Hsetup Hbuilds) as Hmain.
  simpl in Hmain.
  rewrite (compare_trees_resolved _ _ _ _ _ _ _ _ _ _ _ Hr1 Hr2) in Hmain.
  apply manifest_present in Hr1 as (-> & _ & Hm1).
  apply manifest_present in Hr2 as (-> & _ & Hm2).
  set (w3 := add_reads m2 (add_reads m1 w1)) in *.
  assert (Hm1' : ∀ q, q ∈ m1 → q ∈ dom (files w4)).
  { intros q Hq. unfold w4. rewrite both_packaged_dom.
    apply elem_of_union_r. by apply Hm1. }
  assert (Hm2' : ∀ q, q ∈ m2 → q ∈ dom (files (add_reads m1 w4))).
  { intros q Hq. change (files (add_reads m1 w4)) with (files w4).
    unfold w4. rewrite both_packaged_dom.
    apply elem_of_union_r. by apply Hm2. }
  exists (manifest_digest w4 m1), (manifest_digest w4 m2).
  unfold run_script. rewrite Hmain. unfold verdict. fold w4.
  destruct (String.eqb (manifest_digest w4 m1) (manifest_digest w4 m2)) eqn:E.
  - apply String.eqb_eq in E.
    eexists 0, _. split_and!.
    + by apply hash_files_present.
    + rewrite hash_files_present by done. by rewrite add_reads_app.
    + reflexivity.
    + done.
    + intros _. done.
    + intros Hne. done.
    + by exists "determinism_test_files_"%string.
  - apply String.eqb_neq in E.
    eexists 1, _. split_and!.
    + by apply hash_files_present.
    + rewrite hash_files_present by done. by rewrite add_reads_app.
    + reflexivity.
    + split; [done|]. intros He. done.
    + intros He. done.
    + intros _. done.
    + by exists "determinism_test_files_"%string.
Qed.

(** ** The exceptions of the scanner and of the resolver *)

Lemma checked_path_raises (path_bytes : bytes) (e : exn) :
  checked_path path_bytes = Raise e → resolution_error e.
Proof.
  unfold checked_path, Py.decode.
  destruct (Py.utf8_valid path_bytes); simpl.
  - destruct (Py.str_in "$" _); [|done].
    intros [= <-]. right. right. eauto.
  - intros [= <-]. right. by left.
Qed.

Lemma traverse_raises {A B} (f : A → result B) (l : list A) (e : exn) :
  traverse f l = Raise e → ∃ x, x ∈ l ∧ f x = Raise e.
Proof.
  induction l as [|a l IH]; simpl; [done|].
  destruct (f a) as [y|e'] eqn:Ha; simpl.
  - destruct (traverse f l) as [ys|e'']; simpl; [done|].
    intros [= <-]. destruct IH as (x & Hx & Hfx); [done|].
    exists x. split; [by right|done].
  - intros [= <-]. exists a. split; [left|done].
Qed.

Lemma find_subninjas_and_includes_raises (contents : bytes) (e : exn) :
  find_subninjas_and_includes contents = Raise e → resolution_error e.
Proof.
  rewrite find_subninjas_and_includes_lines.
  intros (x & _ & Hx)%traverse_raises. by eapply checked_path_raises.
Qed.

Lemma transitively_included_raises (fuel : nat) (out_dir file : string)
    (seen seen' : Seen) (w w' : World) (e : exn) :
  transitively_included_ninja_files fuel out_dir file seen w
  = Some (Raise e, seen', w') →
  resolution_error e.
Proof.
  revert file seen seen' w w' e.
  induction fuel as [|fuel IH]; intros file seen seen' w w' e; [done|].
  simpl. destruct (read_file file w) as [r w1] eqn:Hread.
  apply read_file_inv in Hread
    as [(contents & -> & Hc & ->)|(-> & Hc & ->)].
  2:{ intros [= <- <- <-]. left. eauto. }
  destruct (find_subninjas_and_includes contents) as [sub_files|e'] eqn:Hscan.
  2:{ intros [= <- <- <-]. by eapply find_subninjas_and_includes_raises. }
  intros Hloop.
  eapply (resolve_loop_inv _ out_dir (λ _ _ _ _, True)) in Hloop; try done.
  destruct Hloop as (sub & rest & r0 & seen0 & w0 & _ & _ & Hrec).
  by eapply IH.
Qed.

Lemma mismatch_is_no_resolution_error :
  ¬ resolution_error (SystemExit mismatch_message).
Proof. intros [[? [=]]|[[=]|[? [=]]]]. Qed.

(** C8. After two successful builds, a run that ends in a verdict, match or
    mismatch, has resolved both trees and has packaged both manifests before
    hashing: [hash_files] runs in a world that already holds the two
    archives, and they are still there when the process ends. *)
Theorem archives_written_before_comparison `{Platform}
    (fuel : nat) (w w0 w1 w' : World) (r : result unit) :
  setup w = (Ok tt, w0) →
  run_builds the_product (out_dir1 w0) (out_dir2 w0) (target_env w0)
  = (Ok (true, true), w1) →
  main fuel w = Some (r, w') →
  r = Ok tt ∨ r = Raise (SystemExit mismatch_message) →
  ∃ m1 m2 s1 s2 w2 w3,
    transitively_included_ninja_files fuel (out_dir1 w0)
      (combined_ninja (out_dir1 w0) the_product) ∅ w1 = Some (Ok m1, s1, w2)
    ∧ transitively_included_ninja_files fuel (out_dir2 w0)
        (combined_ninja (out_dir2 w0) the_product) ∅ w2 = Some (Ok m2, s2, w3)
    ∧ let w4 := both_packaged (out_dir1 w0) (out_dir2 w0) m1 m2 w3 in
      dist_ninja_files (out_dir1 w0) zip_name1 m1 w3
      = (Ok tt, packaged (out_dir1 w0) zip_name1 m1 w3)
      ∧ dist_ninja_files (out_dir2 w0) zip_name2 m2
          (packaged (out_dir1 w0) zip_name1 m1 w3) = (Ok tt, w4)
      ∧ zip_path w1 zip_name1 ∈ dom (files w4)
      ∧ zip_path w1 zip_name2 ∈ dom (files w4)
      ∧ hash_files m1 w4 = (Ok (manifest_digest w4 m1), add_reads m1 w4)
      ∧ (r = if String.eqb (manifest_digest w4 m1) (manifest_digest w4 m2)
             then Ok tt else Raise (SystemExit mismatch_message))
      ∧ files w' = files w4.
Proof.
  intros Hsetup Hbuilds Hmain Hr.
  rewrite (main_after_builds fuel w w0 w1 true true Hsetup Hbuilds) in Hmain.
  simpl in Hmain.
  assert (Hno : ∀ e seen0 w0', r = Raise e →
            ∀ n o f wx, transitively_included_ninja_files n o f ∅ wx
                        ≠ Some (Raise e, seen0, w0')).
  { intros e seen0 w0' -> n o f wx Hx.
    apply transitively_included_raises in Hx.
    destruct Hr as [[=]|[= ->]]. by apply mismatch_is_no_resolution_error. }
  destruct (transitively_included_ninja_files fuel (out_dir1 w0)
              (combined_ninja (out_dir1 w0) the_product) ∅ w1)
    as [[[[m1|e] s1] w2]|] eqn:Hr1.
  2:{ exfalso. unfold compare_trees in Hmain. rewrite Hr1 in Hmain.
      injection Hmain as <- <-. by eapply Hno. }
  2:{ unfold compare_trees in Hmain. by rewrite Hr1 in Hmain. }
  destruct (transitively_included_ninja_files fuel (out_dir2 w0)
              (combined_ninja (out_dir2 w0) the_product) ∅ w2)
    as [[[[m2|e] s2] w3]|] eqn:Hr2.
  2:{ exfalso. unfold compare_trees in Hmain. rewrite Hr1, Hr2 in Hmain.
      injection Hmain as <- <-. by eapply Hno. }
  2:{ unfold compare_trees in Hmain. by rewrite Hr1, Hr2 in Hmain. }
  rewrite (compare_trees_resolved _ _ _ _ _ _ _ _ _ _ _ Hr1 Hr2) in Hmain.
  exists m1, m2, s1, s2, w2, w3. split; [done|]. split; [done|].
  apply manifest_present in Hr1 as (-> & _ & Hm1).
  apply manifest_present in Hr2 as (-> & _ & Hm2).
  set (w3 := add_reads m2 (add_reads m1 w1)) in *.
  intros w4.
  assert (Hm1' : ∀ q, q ∈ m1 → q ∈ dom (files w4)).
  { intros q Hq. unfold w4. rewrite both_packaged_dom.
    apply elem_of_union_r. by apply Hm1. }
  split_and!.
  - by apply dist_ninja_files_present.
  - apply dist_ninja_files_present. intros q Hq. rewrite packaged_dom.
    apply elem_of_union_r. by apply Hm2.
  - unfold w4. rewrite both_packaged_dom.
    change (zip_path w3 zip_name1) with (zip_path w1 zip_name1). set_solver.
  - unfold w4. rewrite both_packaged_dom.
    change (zip_path w3 zip_name2) with (zip_path w1 zip_name2). set_solver.
  - by apply hash_files_present.
  - unfold verdict in Hmain. fold w4 in Hmain.
    destruct (String.eqb _ _); by injection Hmain as <- _.
  - unfold verdict in Hmain. fold w4 in Hmain.
    destruct (String.eqb _ _); by injection Hmain as _ <-.
Qed.

(** ** The scanner *)

(** C5. Whatever the content, the scanner treats exactly the directive
    paths of the content, in their order: the rest of every line that begins
    with [include ] or [subninja ], without one trailing carriage return.
    Each is decoded and checked for a [$]; when every one passes, the list
    returned is exactly these paths.  The lines are the pieces of the content
    between newlines.  The content [include foo.ninja] followed by a newline
    yields the one path [foo.ninja]. *)
Theorem scanner_returns_directive_paths_in_order :
  (∀ contents : bytes,
     find_subninjas_and_includes contents
     = traverse checked_path (directive_paths contents))
  ∧ (∀ (contents : bytes) (paths : list string),
       find_subninjas_and_includes contents = Ok paths →
       map String.list_byte_of_string paths = directive_paths contents)
  ∧ (∀ contents : bytes,
       join_lines (split_lines contents) = contents
       ∧ Forall (Forall (λ c, c ≠ Py.LF)) (split_lines contents))
  ∧ find_subninjas_and_includes (Py.b ("include foo.ninja" +:+ NL))
    = Ok ["foo.ninja"%string].
Proof.
  split_and!.
  - apply find_subninjas_and_includes_lines.
  - intros contents paths. rewrite find_subninjas_and_includes_lines.
    generalize (directive_paths contents). intros l. revert paths.
    induction l as [|p l IH]; intros paths; simpl.
    + by intros [= <-].
    + unfold checked_path at 1, Py.decode.
      destruct (Py.utf8_valid p); [|done]. simpl.
      destruct (Py.str_in "$" _); [done|]. simpl.
      destruct (traverse checked_path l) as [ps|e]; [|done]. simpl.
      intros [= <-]. simpl.
      rewrite String.list_byte_of_string_of_list_byte. f_equal. by apply IH.
  - intros contents. split; [apply split_lines_join|apply split_lines_no_LF].
  - vm_compute. reflexivity.
Qed.

(** ** [Product] *)

Lemma run_star_total {C R} (r : Re.regex C) (s : list C)
    (k : list C → option R) :
  (∀ s', is_Some (k s')) → is_Some (Re.run (Re.Star r) s k).
Proof.
  intros Hk. simpl. generalize (length s) at 1. intros n.
  destruct n as [|n]; [apply Hk|].
  match goal with |- is_Some (match ?x with _ => _ end) => destruct x end;
    [eauto|apply Hk].
Qed.

Lemma run_opt_total {C R} (r : Re.regex C) (s : list C)
    (k : list C → option R) :
  (∀ s', is_Some (k s')) → is_Some (Re.run (Re.Opt r) s k).
Proof.
  intros Hk. simpl. destruct (Re.run r s k); [eauto|apply Hk].
Qed.

(** The pattern is matched at the start of the text only, and everything
    after the first identifier is optional. *)
Lemma product_regex_match (s : list ascii) :
  is_Some (Re.match_ _PRODUCT_REGEX s)
  ↔ ∃ c s', s = c :: s' ∧ ident_start c = true.
Proof.
  unfold Re.match_, _PRODUCT_REGEX, ident.
  match goal with
  | |- context [Re.run (Re.Seq (Re.Seq (Re.Chr ident_start) ?star) ?tail) s Some] =>
      change (Re.run (Re.Seq (Re.Seq (Re.Chr ident_start) star) tail) s Some)
        with (match s with
              | c :: s' =>
                  if ident_start c
                  then Re.run star s' (λ s1, Re.run tail s1 Some)
                  else None
              | [] => None
              end)
  end.
  destruct s as [|c s'].
  - split; [by intros [? [=]]|by intros (? & ? & [=] & _)].
  - destruct (ident_start c) eqn:Hc.
    + split; [eauto|]. intros _.
      apply run_star_total. intros s1. by apply run_opt_total.
    + split; [by intros [? [=]]|]. intros (? & ? & [= <- <-] & ?). congruence.
Qed.

(** C2. Construction succeeds exactly when the product name begins with a
    letter or an underscore, whatever the release and the variant are: the
    pattern is matched at the start of the composed text and all that follows
    the first identifier is optional.  So the variant [bogus] is accepted.
    The triple of [main] is accepted as well and prints as the three parts
    joined by dashes. *)
Theorem Product_checks_only_the_start_of_the_name :
  (∀ p r v : string,
     new_Product p r v
     = match p with
       | String c _ =>
           if ident_start c then Ok (mkProduct p r v)
           else Raise (ValueError ("Invalid product name: "
                                   +:+ Product_str (mkProduct p r v)))
       | EmptyString =>
           Raise (ValueError ("Invalid product name: "
                              +:+ Product_str (mkProduct p r v)))
       end)
  ∧ new_Product "aosp_cf_x86_64_phone" "trunk_staging" "bogus"
    = Ok (mkProduct "aosp_cf_x86_64_phone" "trunk_staging" "bogus")
  ∧ new_Product "aosp_cf_x86_64_phone" "trunk_staging" "userdebug"
    = Ok the_product
  ∧ Product_str the_product
    = "aosp_cf_x86_64_phone-trunk_staging-userdebug"%string.
Proof.
  split_and!; [|vm_compute; reflexivity..].
  intros p r v. unfold new_Product, Product_post_init.
  pose proof (product_regex_match
                (String.list_ascii_of_string (Product_str (mkProduct p r v))))
    as Hm.
  unfold Product_str in Hm at 1. simpl in Hm.
  destruct p as [|c p'].
  - destruct (Re.match_ _ _) as [x|] eqn:E; [|done].
    exfalso. destruct (proj1 Hm) as (c & s' & Hs & Hc); [eauto|].
    simpl in Hs. injection Hs as <- _. done.
  - simpl in Hm. destruct (ident_start c) eqn:Hc.
    + destruct (Re.match_ _ _) as [x|] eqn:E; [done|].
      exfalso. destruct (proj2 Hm) as [? [=]]. eauto.
    + destruct (Re.match_ _ _) as [x|] eqn:E; [|done].
      exfalso. destruct (proj1 Hm) as (c' & s' & Hs & Hc'); [eauto|].
      injection Hs as <- _. congruence.
Qed.

(** ** [hash_files] *)

Lemma run_script_verdict `{Platform} (fuel : nat) (w w0 w1 w2 w3 : World)
    (s1 s2 : Seen) (m1 m2 : list string) :
  setup w = (Ok tt, w0) →
  run_builds the_product (out_dir1 w0) (out_dir2 w0) (target_env w0)
  = (Ok (true, true), w1) →
  transitively_included_ninja_files fuel (out_dir1 w0)
    (combined_ninja (out_dir1 w0) the_product) ∅ w1 = Some (Ok m1, s1, w2) →
  transitively_included_ninja_files fuel (out_dir2 w0)
    (combined_ninja (out_dir2 w0) the_product) ∅ w2 = Some (Ok m2, s2, w3) →
  main fuel w = Some (verdict (out_dir1 w0) (out_dir2 w0) m1 m2 w3).
Proof.
  intros Hsetup Hbuilds Hr1 Hr2.
  rewrite (main_after_builds fuel w w0 w1 true true Hsetup Hbuilds). simpl.
  by eapply compare_trees_resolved.
Qed.

(** C10. On files that exist, [hash_files] returns the MD5 of their contents
    put end to end in list order, having opened each of them once in that
    order; the first file that is missing makes it raise.  So two lists of
    files whose contents put end to end are the same bytes get the same
    digest, and [main] reports two such manifests as deterministic.  The
    sample pair, three files against two, is reported as a match. *)
Theorem hash_files_is_md5_of_concatenation :
  (∀ (l : list string) (w : World),
     (∀ p, p ∈ l → p ∈ dom (files w)) →
     hash_files l w
     = (Ok (MD5.hexdigest (concat (map (λ p, default [] (files w !! p)) l))),
        add_reads l w))
  ∧ (∀ (l1 l2 : list string) (p : string) (w : World),
       (∀ q, q ∈ l1 → q ∈ dom (files w)) → files w !! p = None →
       hash_files (l1 ++ p :: l2) w
       = (Raise (FileNotFoundError p), add_reads l1 w))
  ∧ (∀ (l1 l2 : list string) (w1 w2 : World),
       (∀ p, p ∈ l1 → p ∈ dom (files w1)) →
       (∀ p, p ∈ l2 → p ∈ dom (files w2)) →
       contents_of (files w1) l1 = contents_of (files w2) l2 →
       (hash_files l1 w1).1 = (hash_files l2 w2).1)
  ∧ (∀ (platform : Platform) (fuel : nat) (w w0 w1 w2 w3 : World)
       (s1 s2 : Seen) (m1 m2 : list string),
       setup w = (Ok tt, w0) →
       run_builds the_product (out_dir1 w0) (out_dir2 w0) (target_env w0)
       = (Ok (true, true), w1) →
       transitively_included_ninja_files fuel (out_dir1 w0)
         (combined_ninja (out_dir1 w0) the_product) ∅ w1
       = Some (Ok m1, s1, w2) →
       transitively_included_ninja_files fuel (out_dir2 w0)
         (combined_ninja (out_dir2 w0) the_product) ∅ w2
       = Some (Ok m2, s2, w3) →
       let w4 := both_packaged (out_dir1 w0) (out_dir2 w0) m1 m2 w3 in
       contents_of (files w4) m1 = contents_of (files w4) m2 →
       run_script fuel w
       = Some (0, print_stdout success_message (add_reads (m1 ++ m2) w4)))
  ∧ (∃ m1 m2 w',
       outcome_of (@transitively_included_ninja_files 4
                     "out/determinism_test_out1"
                     (combined_ninja "out/determinism_test_out1" the_product)
                     ∅ regrouped_trees) = Some (Ok m1, m1)
       ∧ outcome_of (@transitively_included_ninja_files 4
                       "out/determinism_test_out2"
                       (combined_ninja "out/determinism_test_out2" the_product)
                       ∅ regrouped_trees) = Some (Ok m2, m2)
       ∧ length m1 = 3%nat ∧ length m2 = 2%nat
       ∧ @run_script sample_platform 4 regrouped_trees = Some (0, w')
       ∧ stdout w' = [success_message +:+ NL]).
Proof.
  split_and!.
  - apply hash_files_present.
  - intros l1 l2 p w Hl Hp. unfold hash_files.
    by rewrite hash_files_loop_missing.
  - intros l1 l2 w1 w2 H1 H2 Heq.
    rewrite !hash_files_present by done. simpl. by rewrite Heq.
  - intros platform fuel w w0 w1 w2 w3 s1 s2 m1 m2 Hs Hb Hr1 Hr2 w4 Heq.
    unfold run_script.
    rewrite (run_script_verdict _ _ _ _ _ _ _ _ _ _ Hs Hb Hr1 Hr2).
    unfold verdict. fold w4. unfold manifest_digest. rewrite Heq.
    by rewrite String.eqb_refl.
  - eexists _, _, _. split_and!; vm_compute; reflexivity.
Qed.

(** ** The hashing walk *)

Section HashLoop.
Variable rec : string → Hasher → World → result unit * Hasher * World.
Variable out_dir : string.
Variable I : list string → Hasher → World → Prop.

Hypothesis I_step : ∀ sub rest hasher w u hasher' w',
  I (sub :: rest) hasher w →
  rec (rejoin out_dir sub) hasher w = (Ok u, hasher', w') →
  I rest hasher' w'.

Lemma hash_loop_inv sub_files hasher w r hasher' w' :
  I sub_files hasher w →
  hash_loop rec out_dir sub_files hasher w = (r, hasher', w') →
  match r with
  | Ok _ => I [] hasher' w'
  | Raise e =>
      ∃ sub rest hasher0 w0,
        I (sub :: rest) hasher0 w0
        ∧ rec (rejoin out_dir sub) hasher0 w0 = (Raise e, hasher', w')
  end.
Proof.
  revert hasher w.
  induction sub_files as [|sub rest IH]; intros hasher w HI; simpl.
  - intros [= <- <- <-]. exact HI.
  - destruct (rec (rejoin out_dir sub) hasher w)
      as [[[u|e] hasher1] w1] eqn:Hrec.
    + apply IH. by eapply I_step.
    + intros [= <- <- <-]. by exists sub, rest, hasher, w.
Qed.

End HashLoop.

(** A scan that the stack allows is the scan. *)
Lemma call_find_subninjas_and_includes_inv (frames : nat) (contents : bytes)
    (r : result (list string)) :
  call_find_subninjas_and_includes frames contents = r →
  r = Raise RecursionError ∨ r = find_subninjas_and_includes contents.
Proof.
  intros <-. destruct frames as [|[|frames]]; simpl; [by left| |by right].
  destruct (has_directive contents); [by left|by right].
Qed.

Lemma call_find_subninjas_and_includes_enough (frames : nat)
    (contents : bytes) :
  (2 ≤ frames)%nat →
  call_find_subninjas_and_includes frames contents
  = find_subninjas_and_includes contents.
Proof. intros H. destruct frames as [|[|frames]]; [lia..|done]. Qed.

Lemma call_find_subninjas_and_includes_mono (n m : nat) (contents : bytes) :
  (n ≤ m)%nat →
  call_find_subninjas_and_includes n contents ≠ Raise RecursionError →
  call_find_subninjas_and_includes m contents
  = call_find_subninjas_and_includes n contents.
Proof.
  intros Hle Hn.
  destruct n as [|[|n]]; [done| |by destruct m as [|[|m]]; [lia..|]].
  simpl in Hn |- *. destruct (has_directive contents) eqn:Hd; [done|].
  destruct m as [|[|m]]; [lia| |done]. simpl. by rewrite Hd.
Qed.

Lemma scan_no_RecursionError (contents : bytes) :
  find_subninjas_and_includes contents ≠ Raise RecursionError.
Proof.
  intros H. apply find_subninjas_and_includes_raises in H.
  destruct H as [[? [=]]|[[=]|[? [=]]]].
Qed.

(** What one call of the walk does: [new] are the files it opened, in
    order; when it returns, their bytes are what it fed to the hash. *)
Lemma hash_ninja_file_reads (frames : nat) (out_dir file : string)
    (hasher hasher' : Hasher) (w w' : World) (r : result unit) :
  hash_ninja_file frames out_dir file hasher w = (r, hasher', w') →
  ∃ new, w' = add_reads new w
    ∧ (is_ok r = true →
       head new = Some file
       ∧ fed hasher' = fed hasher ++ contents_of (files w) new).
Proof.
  revert file hasher hasher' w w' r.
  induction frames as [|frames IH]; intros file hasher hasher' w w' r.
  { intros [= <- <- <-]. exists []. by rewrite add_reads_nil. }
  simpl. destruct (read_file file w) as [r0 w1] eqn:Hread.
  apply read_file_inv in Hread
    as [(contents & -> & Hc & ->)|(-> & Hc & ->)].
  2:{ intros [= <- <- <-]. exists []. by rewrite add_reads_nil. }
  destruct (call_find_subninjas_and_includes frames contents)
    as [sub_files|e].
  2:{ intros [= <- <- <-]. by exists [file]. }
  intros Hloop.
  pose (I := λ (_ : list string) (h_c : Hasher) (w_c : World),
    ∃ new, w_c = add_reads new w ∧ head new = Some file
           ∧ fed h_c = fed hasher ++ contents_of (files w) new).
  eapply (hash_loop_inv _ out_dir I) in Hloop.
  - destruct r as [u|e].
    + destruct Hloop as (new & -> & ? & ?). by exists new.
    + destruct Hloop as (sub & rest & h0 & w0 & (new & -> & _) & Hrec).
      apply IH in Hrec as (more & -> & _).
      exists (new ++ more). by rewrite add_reads_app.
  - intros sub rest h_c w_c u h1 w1 (new & -> & Hhd & Hfed) Hrec.
    apply IH in Hrec as (more & -> & Hmore).
    destruct (Hmore eq_refl) as [_ Hfed1].
    exists (new ++ more). rewrite add_reads_app. split_and!; [done| |].
    + by destruct new.
    + rewrite Hfed1, Hfed. unfold contents_of.
      by rewrite map_app, concat_app, app_assoc.
  - exists [file]. split_and!; [done..|].
    unfold contents_of. cbn [map concat]. rewrite Hc. simpl.
    by rewrite app_nil_r.
Qed.

Lemma hash_ninja_file_files (frames : nat) (out_dir file : string)
    (hasher hasher' : Hasher) (w w' : World) (r : result unit) :
  hash_ninja_file frames out_dir file hasher w = (r, hasher', w') →
  files w' = files w.
Proof. by intros (new & -> & _)%hash_ninja_file_reads. Qed.

(** More frames change nothing for a call that did not run out of them. *)
Lemma hash_loop_mono rec rec' out_dir sub_files hasher w r h' w' :
  (∀ file h w r h' w',
     r ≠ Raise RecursionError →
     rec file h w = (r, h', w') → rec' file h w = (r, h', w')) →
  r ≠ Raise RecursionError →
  hash_loop rec out_dir sub_files hasher w = (r, h', w') →
  hash_loop rec' out_dir sub_files hasher w = (r, h', w').
Proof.
  intros Hrec Hr. revert hasher w.
  induction sub_files as [|sub rest IH]; intros hasher w; simpl; [done|].
  destruct (rec (rejoin out_dir sub) hasher w) as [[[u|e] h1] w1] eqn:E.
  - rewrite (Hrec _ _ _ (Ok u) _ _ ltac:(done) E). apply IH.
  - intros [= <- <- <-]. by rewrite (Hrec _ _ _ _ _ _ Hr E).
Qed.

Lemma hash_ninja_file_mono (n m : nat) out_dir file hasher w r h' w' :
  (n ≤ m)%nat →
  r ≠ Raise RecursionError →
  hash_ninja_file n out_dir file hasher w = (r, h', w') →
  hash_ninja_file m out_dir file hasher w = (r, h', w').
Proof.
  revert m file hasher w r h' w'.
  induction n as [|n IH]; intros m file hasher w r h' w' Hle Hr.
  { by intros [= <- <- <-]. }
  destruct m as [|m]; [lia|]. simpl.
  destruct (read_file file w) as [[contents|e] w1]; [|done].
  destruct (call_find_subninjas_and_includes n contents)
    as [sub_files|e] eqn:Hscan.
  - rewrite call_find_subninjas_and_includes_mono with (n := n)
      by (lia || by rewrite Hscan).
    rewrite Hscan. apply hash_loop_mono; [|done].
    intros ???????. apply IH; [lia|done].
  - intros [= <- <- <-].
    rewrite call_find_subninjas_and_includes_mono with (n := n)
      by (lia || (rewrite Hscan; by intros [= ->])).
    by rewrite Hscan.
Qed.

(** On a tree whose files all scan and refer to files of the tree, the only
    exception of the walk is the one of the stack limit. *)
Lemma hash_ninja_file_ok (fs : gmap string bytes) (frames : nat)
    (out_dir file : string) (hasher hasher' : Hasher) (w w' : World) (e : exn) :
  well_formed fs out_dir →
  files w = fs →
  file ∈ dom fs →
  hash_ninja_file frames out_dir file hasher w = (Raise e, hasher', w') →
  e = RecursionError.
Proof.
  intros Hwf. revert file hasher hasher' w w' e.
  induction frames as [|frames IH]; intros file hasher hasher' w w' e Hw Hin.
  { by intros [= <- _ _]. }
  simpl. destruct (read_file file w) as [r w1] eqn:Hread.
  apply read_file_inv in Hread
    as [(contents & -> & Hc & ->)|(-> & Hc & ->)].
  2:{ apply elem_of_dom in Hin as [? Hin]. congruence. }
  rewrite Hw in Hc. destruct (Hwf _ _ Hc) as (sub_files & Hscan & Hsubs).
  destruct (call_find_subninjas_and_includes frames contents)
    as [subs|e'] eqn:Hcall.
  2:{ intros [= <- _ _].
      apply call_find_subninjas_and_includes_inv in Hcall as [[= ->]|Hcall];
        [done|congruence]. }
  apply call_find_subninjas_and_includes_inv in Hcall as [[=]|Hcall].
  assert (subs = sub_files) as -> by congruence.
  intros Hloop.
  pose (I := λ (rest : list string) (_ : Hasher) (w_c : World),
    files w_c = fs ∧ ∀ d, d ∈ rest → rejoin out_dir d ∈ dom fs).
  eapply (hash_loop_inv _ out_dir I) in Hloop.
  - destruct Hloop as (sub & rest & h0 & w0 & [Hw0 HI] & Hrec).
    eapply IH; [exact Hw0| |exact Hrec]. apply HI. left.
  - intros sub rest h_c w_c u h1 w1 [Hwc HI] Hrec.
    apply hash_ninja_file_files in Hrec.
    split; [congruence|]. intros d Hd. apply HI. by right.
  - split; [done|]. exact Hsubs.
Qed.

(** On a tree without a cycle a walk with two frames more than the tree has
    files does not reach the stack limit. *)
Lemma hash_ninja_file_returns (fs : gmap string bytes) (out_dir : string)
    (frames : nat) (file : string) (above : gset string) (hasher : Hasher)
    (w : World) :
  acyclic fs out_dir →
  files w = fs →
  above ⊆ dom fs →
  (∀ a, a ∈ above → tc (edge fs out_dir) a file) →
  (1 ≤ frames)%nat →
  (file ∈ dom fs → (size (dom fs ∖ above) + 2 ≤ frames)%nat) →
  (hash_ninja_file frames out_dir file hasher w).1.1 ≠ Raise RecursionError.
Proof.
  intros Hacyc. revert file above hasher w.
  induction frames as [|frames IH];
    intros file above hasher w Hw Hsub Habove Hone Hframes; [lia|].
  simpl. destruct (read_file file w) as [r w1] eqn:Hread.
  apply read_file_inv in Hread
    as [(contents & -> & Hc & ->)|(-> & Hc & ->)]; [|done].
  rewrite Hw in Hc.
  assert (Hin : file ∈ dom fs) by (apply elem_of_dom; eauto).
  assert (Hnot : file ∉ above).
  { intros Ha. by apply (Hacyc file), Habove. }
  specialize (Hframes Hin).
  assert (Hlt : (size (dom fs ∖ ({[file]} ∪ above)) < size (dom fs ∖ above))%nat).
  { apply subset_size. split; [set_solver|].
    intros H. specialize (H file). set_solver. }
  rewrite call_find_subninjas_and_includes_enough by lia.
  destruct (find_subninjas_and_includes contents) as [sub_files|e] eqn:Hscan.
  2:{ simpl. intros [= ->]. by apply (scan_no_RecursionError contents). }
  pose proof (includes_scanned _ out_dir _ _ _ Hc Hscan) as Hincl.
  assert (Hkids : ∀ d, d ∈ sub_files → edge fs out_dir file (rejoin out_dir d)).
  { intros d Hd. unfold edge. rewrite Hincl. by apply list_elem_of_fmap_2. }
  clear Hincl Hscan Hc.
  generalize (hasher_update hasher contents).
  assert (Hw1 : files (add_reads [file] w) = fs) by done.
  revert Hw1. generalize (add_reads [file] w).
  induction sub_files as [|sub rest IHl]; intros w_c Hwc h_c; simpl; [done|].
  pose proof (IH (rejoin out_dir sub) ({[file]} ∪ above) h_c w_c) as Hsub1.
  destruct (hash_ninja_file frames out_dir (rejoin out_dir sub) h_c w_c)
    as [[[u|e] h1] w1] eqn:Hout.
  - apply hash_ninja_file_files in Hout. apply IHl.
    + intros d Hd. apply Hkids. by right.
    + congruence.
  - simpl in *. apply Hsub1.
    + done.
    + set_solver.
    + intros a [->%elem_of_singleton|Ha]%elem_of_union.
      * apply tc_once, Hkids. left.
      * eapply tc_r; [by apply Habove|]. apply Hkids. left.
    + lia.
    + intros _. lia.
Qed.

(** A walk that returns has met no cycle. *)
Lemma hash_loop_children (frames : nat) (out_dir : string) (l : list string)
    (h h' : Hasher) (w w' : World) :
  hash_loop (hash_ninja_file frames out_dir) out_dir l h w = (Ok tt, h', w') →
  ∀ s, s ∈ l →
    ∃ h0 w0 h1 w1,
      files w0 = files w
      ∧ hash_ninja_file frames out_dir (rejoin out_dir s) h0 w0
        = (Ok tt, h1, w1).
Proof.
  revert h w. induction l as [|c l IH]; intros h w H s Hs.
  { by apply elem_of_nil in Hs. }
  simpl in H.
  destruct (hash_ninja_file frames out_dir (rejoin out_dir c) h w)
    as [[[[]|e] h1] w1] eqn:E; [|done].
  apply elem_of_cons in Hs as [->|Hs].
  - by exists h, w, h1, w1.
  - destruct (IH _ _ H s Hs) as (h0 & w0 & h2 & w2 & Hf & Hrun).
    exists h0, w0, h2, w2. split; [|done].
    rewrite Hf. by eapply hash_ninja_file_files.
Qed.

Lemma hash_ninja_file_scanned (frames : nat) (out_dir file : string)
    (h h' : Hasher) (w w' : World) :
  hash_ninja_file (S frames) out_dir file h w = (Ok tt, h', w') →
  ∃ contents sub_files,
    files w !! file = Some contents
    ∧ find_subninjas_and_includes contents = Ok sub_files
    ∧ hash_loop (hash_ninja_file frames out_dir) out_dir sub_files
        (hasher_update h contents) (add_reads [file] w)
      = (Ok tt, h', w').
Proof.
  simpl. destruct (read_file file w) as [r w1] eqn:Hread.
  apply read_file_inv in Hread
    as [(contents & -> & Hc & ->)|(-> & Hc & ->)]; [|done].
  destruct (call_find_subninjas_and_includes frames contents)
    as [sub_files|e] eqn:Hcall; [|done].
  apply call_find_subninjas_and_includes_inv in Hcall as [[=]|Hcall].
  intros Hloop. by exists contents, sub_files.
Qed.

Lemma walk_child (fs : gmap string bytes) (out_dir : string) (n : nat)
    (p c : string) (h h' : Hasher) (w w' : World) :
  files w = fs →
  hash_ninja_file (S n) out_dir p h w = (Ok tt, h', w') →
  edge fs out_dir p c →
  ∃ h0 w0 h1 w1,
    files w0 = fs
    ∧ hash_ninja_file n out_dir c h0 w0 = (Ok tt, h1, w1).
Proof.
  intros Hfs H Hedge.
  apply hash_ninja_file_scanned in H as (contents & subs & Hp & Hscan & H).
  unfold edge in Hedge. rewrite <- Hfs in Hedge.
  rewrite (includes_scanned _ _ _ _ _ Hp Hscan) in Hedge.
  apply list_elem_of_fmap in Hedge as (s & -> & Hs).
  destruct (hash_loop_children _ _ _ _ _ _ _ H s Hs)
    as (h0 & w0 & h1 & w1 & Hf & Hrun).
  exists h0, w0, h1, w1. split; [|done]. by rewrite Hf.
Qed.

Lemma walk_reach (fs : gmap string bytes) (out_dir : string) (n : nat)
    (p q : string) :
  rtc (edge fs out_dir) p q →
  ∀ (h h' : Hasher) (w w' : World),
    files w = fs →
    hash_ninja_file n out_dir p h w = (Ok tt, h', w') →
    ∃ h0 w0 h1 w1,
      files w0 = fs
      ∧ hash_ninja_file n out_dir q h0 w0 = (Ok tt, h1, w1).
Proof.
  induction 1 as [p|p c q Hpc Hcq IH]; intros h h' w w' Hfs H.
  - by exists h, w, h', w'.
  - destruct n as [|n]; [done|].
    destruct (walk_child _ _ _ _ _ _ _ _ _ Hfs H Hpc)
      as (h0 & w0 & h1 & w1 & Hf & Hrun).
    apply (hash_ninja_file_mono n (S n)) in Hrun; [|lia|done].
    by apply (IH _ _ _ _ Hf Hrun).
Qed.

Lemma walk_no_cycle (fs : gmap string bytes) (out_dir : string) (n : nat) :
  ∀ (p : string) (h h' : Hasher) (w w' : World),
    files w = fs →
    hash_ninja_file n out_dir p h w = (Ok tt, h', w') →
    ¬ tc (edge fs out_dir) p p.
Proof.
  induction n as [|n IH]; intros p h h' w w' Hfs H Htc; [done|].
  assert (∃ c, edge fs out_dir p c ∧ rtc (edge fs out_dir) c p)
    as (c & Hpc & Hcp).
  { inversion Htc as [? ? Hpp|? c ? Hpc Hcp]; subst.
    - by exists p.
    - exists c. split; [done|]. by apply tc_rtc. }
  destruct (walk_child _ _ _ _ _ _ _ _ _ Hfs H Hpc)
    as (h0 & w0 & h1 & w1 & Hf & Hrun).
  destruct (walk_reach _ _ _ _ _ Hcp _ _ _ _ Hf Hrun)
    as (h2 & w2 & h3 & w3 & Hf2 & Hrun2).
  by apply (IH _ _ _ _ _ Hf2 Hrun2).
Qed.

(** On a well-formed tree, a walk that can reach a cycle ends at the stack
    limit, whatever the limit is. *)
Lemma hash_ninja_file_overflows (fs : gmap string bytes) (out_dir : string)
    (frames : nat) (file c : string) (hasher : Hasher) (w : World) :
  well_formed fs out_dir →
  files w = fs →
  file ∈ dom fs →
  rtc (edge fs out_dir) file c →
  tc (edge fs out_dir) c c →
  ∃ hasher' w',
    hash_ninja_file frames out_dir file hasher w
    = (Raise RecursionError, hasher', w').
Proof.
  intros Hwf Hw Hin Hreach Hcyc.
  destruct (hash_ninja_file frames out_dir file hasher w)
    as [[[[]|e] h'] w'] eqn:Hrun.
  - exfalso.
    destruct (walk_reach _ _ _ _ _ Hreach _ _ _ _ Hw Hrun)
      as (h0 & w0 & h1 & w1 & Hf & Hrun').
    by apply (walk_no_cycle _ _ _ _ _ _ _ _ Hf Hrun').
  - apply (hash_ninja_file_ok fs) in Hrun as ->; [eauto|done..].
Qed.

(** ** Cycles *)

Lemma acyclic_ranked (fs : gmap string bytes) (out_dir : string)
    (rank : string → nat) :
  (∀ p q, edge fs out_dir p q → (rank q < rank p)%nat) →
  acyclic fs out_dir.
Proof.
  intros Hrank p Hp.
  assert (H : ∀ a c, tc (edge fs out_dir) a c → (rank c < rank a)%nat).
  { induction 1 as [a c Hac|a c d Hac _ IH]; [by apply Hrank|].
    specialize (Hrank _ _ Hac). lia. }
  specialize (H _ _ Hp). lia.
Qed.

Lemma diamond_acyclic : acyclic diamond_files "o".
Proof.
  apply (acyclic_ranked _ _ diamond_rank). intros p q. unfold edge.
  destruct (decide (p = "o/root.ninja")) as [->|H1];
    [|destruct (decide (p = "o/b.ninja")) as [->|H2];
      [|destruct (decide (p = "o/c.ninja")) as [->|H3];
        [|destruct (decide (p = "o/d.ninja")) as [->|H4]]]].
  - change (includes diamond_files "o" "o/root.ninja")
      with ["o/b.ninja"; "o/c.ninja"]%string.
    intros [->|[->|[]%elem_of_nil]%elem_of_cons]%elem_of_cons;
      vm_compute; lia.
  - change (includes diamond_files "o" "o/b.ninja") with ["o/d.ninja"%string].
    intros ->%list_elem_of_singleton. vm_compute. lia.
  - change (includes diamond_files "o" "o/c.ninja") with ["o/d.ninja"%string].
    intros ->%list_elem_of_singleton. vm_compute. lia.
  - change (includes diamond_files "o" "o/d.ninja") with (@nil string).
    by intros ?%elem_of_nil.
  - unfold includes, diamond_files. simpl list_to_map.
    rewrite !lookup_insert_ne by done. rewrite lookup_empty.
    by intros ?%elem_of_nil.
Qed.

Lemma cycle_well_formed : well_formed cycle_files "o".
Proof.
  intros f c. unfold cycle_files. simpl list_to_map.
  intros [[<- <-]|[_ [[<- <-]|[_ []%lookup_empty_Some]]%lookup_insert_Some]]
    %lookup_insert_Some.
  - exists ["b.ninja"%string]. split; [vm_compute; reflexivity|].
    intros ? ->%list_elem_of_singleton. apply elem_of_dom.
    eexists. vm_compute. reflexivity.
  - exists ["a.ninja"%string]. split; [vm_compute; reflexivity|].
    intros ? ->%list_elem_of_singleton. apply elem_of_dom.
    eexists. vm_compute. reflexivity.
Qed.

Lemma cycle_is_cycle : tc (edge cycle_files "o") "o/a.ninja" "o/a.ninja".
Proof.
  apply tc_l with "o/b.ninja"%string; [|apply tc_once]; unfold edge.
  - change (includes cycle_files "o" "o/a.ninja") with ["o/b.ninja"%string].
    left.
  - change (includes cycle_files "o" "o/b.ninja") with ["o/a.ninja"%string].
    left.
Qed.

(** C4, as the interpreter runs the walk.  The walk keeps no registry and
    has no bound of its own; what ends it on a cycle is the limit of the
    interpreter's stack.  On a tree in which no file reaches itself, a walk
    that is left two frames more than the tree has files does not reach the
    limit, and it returns if the files of the tree all scan and refer to
    files of the tree.  On such a tree, a walk started at a file that reaches
    a cycle never returns: whatever the limit, it ends with
    [RecursionError].  So does the walk on two files that include each
    other. *)
Theorem hash_walk_on_a_cycle_ends_with_RecursionError :
  (∀ (out_dir file : string) (hasher : Hasher) (w : World) (frames : nat),
     acyclic (files w) out_dir →
     (size (files w) + 2 ≤ frames)%nat →
     (hash_ninja_file frames out_dir file hasher w).1.1
     ≠ Raise RecursionError)
  ∧ (∀ (out_dir file : string) (hasher : Hasher) (w : World) (frames : nat),
       acyclic (files w) out_dir →
       well_formed (files w) out_dir →
       file ∈ dom (files w) →
       (size (files w) + 2 ≤ frames)%nat →
       ∃ hasher' w',
         hash_ninja_file frames out_dir file hasher w = (Ok tt, hasher', w'))
  ∧ (∀ (out_dir file c : string) (hasher : Hasher) (w : World) (frames : nat),
       well_formed (files w) out_dir →
       file ∈ dom (files w) →
       rtc (edge (files w) out_dir) file c →
       tc (edge (files w) out_dir) c c →
       ∃ hasher' w',
         hash_ninja_file frames out_dir file hasher w
         = (Raise RecursionError, hasher', w'))
  ∧ (∀ frames : nat,
       ∃ hasher' w',
         hash_ninja_file frames "o" "o/a.ninja" md5_new (world_of cycle_files)
         = (Raise RecursionError, hasher', w')).
Proof.
  assert (Hlimit : ∀ (out_dir file : string) (hasher : Hasher) (w : World)
                     (frames : nat),
            acyclic (files w) out_dir →
            (size (files w) + 2 ≤ frames)%nat →
            (hash_ninja_file frames out_dir file hasher w).1.1
            ≠ Raise RecursionError).
  { intros out_dir file hasher w frames Hacyc Hframes.
    apply (hash_ninja_file_returns (files w) out_dir frames file ∅);
      [done|done|set_solver|set_solver|lia|].
    intros _. rewrite difference_empty_L, size_dom. done. }
  split_and!.
  - exact Hlimit.
  - intros out_dir file hasher w frames Hacyc Hwf Hin Hframes.
    specialize (Hlimit out_dir file hasher w frames Hacyc Hframes).
    destruct (hash_ninja_file frames out_dir file hasher w)
      as [[[[]|e] h'] w'] eqn:Hrun; [eauto|].
    apply (hash_ninja_file_ok (files w)) in Hrun as ->; done.
  - intros out_dir file c hasher w frames Hwf Hin Hreach Hcyc.
    by eapply hash_ninja_file_overflows.
  - intros frames.
    apply (hash_ninja_file_overflows cycle_files "o" frames _
             "o/a.ninja"%string).
    + apply cycle_well_formed.
    + reflexivity.
    + apply elem_of_dom. eexists. vm_compute. reflexivity.
    + apply rtc_refl.
    + apply cycle_is_cycle.
Qed.

Lemma hash_walk_witness :
  acyclic (files (world_of diamond_files)) "o"
  ∧ (hash_ninja_file 6 "o" "o/root.ninja" md5_new
       (world_of diamond_files)).1.1 ≠ Raise RecursionError
  ∧ ∃ hasher' w',
      hash_ninja_file 7 "o" "o/b.ninja" md5_new (world_of cycle_files)
      = (Raise RecursionError, hasher', w').
Proof.
  split_and!.
  - exact diamond_acyclic.
  - apply (proj1 hash_walk_on_a_cycle_ends_with_RecursionError).
    + exact diamond_acyclic.
    + vm_compute. lia.
  - apply (proj1 (proj2 (proj2 hash_walk_on_a_cycle_ends_with_RecursionError))
             "o" "o/b.ninja" "o/a.ninja")%string.
    + exact cycle_well_formed.
    + apply elem_of_dom. eexists. vm_compute. reflexivity.
    + apply rtc_once. unfold edge.
      change (includes (files (world_of cycle_files)) "o" "o/b.ninja")
        with ["o/a.ninja"%string].
      left.
    + exact cycle_is_cycle.
Defined.

(** The walk on two files that include each other terminates: left a
    thousand frames, it ends with [RecursionError] when it has opened 999
    files. *)
Lemma hash_walk_on_a_cycle_terminates :
  (walk_outcome (hash_ninja_file 1000 "o" "o/a.ninja" md5_new
                   (world_of cycle_files))).1
  = Raise RecursionError
  ∧ length (walk_outcome (hash_ninja_file 1000 "o" "o/a.ninja" md5_new
                            (world_of cycle_files))).2
    = 999%nat.
Proof. split; vm_compute; reflexivity. Qed.

(** ** The digest [main] compares *)

(** C1, as the code has it.  The digest [main] computes for a tree is
    [hash_files] of the manifest the resolver returned for it: the MD5 of the
    bytes of the files of the manifest, each listed once, in first-discovery
    order.  [main] compares these two digests and nothing else;
    [hash_ninja_file] is not part of the run, which therefore ends on trees
    with a cycle too.  On the diamond the manifest lists the shared file
    once. *)
Theorem program_digest_is_of_the_deduplicated_manifest :
  (∀ (platform : Platform) (fuel : nat) (w w0 w1 w2 w3 : World)
     (s1 s2 : Seen) (m1 m2 : list string),
     setup w = (Ok tt, w0) →
     run_builds the_product (out_dir1 w0) (out_dir2 w0) (target_env w0)
     = (Ok (true, true), w1) →
     transitively_included_ninja_files fuel (out_dir1 w0)
       (combined_ninja (out_dir1 w0) the_product) ∅ w1
     = Some (Ok m1, s1, w2) →
     transitively_included_ninja_files fuel (out_dir2 w0)
       (combined_ninja (out_dir2 w0) the_product) ∅ w2
     = Some (Ok m2, s2, w3) →
     let w4 := both_packaged (out_dir1 w0) (out_dir2 w0) m1 m2 w3 in
     let hash1 := MD5.hexdigest (contents_of (files w4) m1) in
     let hash2 := MD5.hexdigest (contents_of (files w4) m2) in
     NoDup m1 ∧ NoDup m2
     ∧ discovery_order (files w1) (out_dir1 w0) ∅ m1
     ∧ discovery_order (files w1) (out_dir2 w0) ∅ m2
     ∧ hash_files m1 w4 = (Ok hash1, add_reads m1 w4)
     ∧ hash_files m2 (add_reads m1 w4) = (Ok hash2, add_reads (m1 ++ m2) w4)
     ∧ main fuel w
       = Some (if String.eqb hash1 hash2
               then (Ok tt, print_stdout success_message
                              (add_reads (m1 ++ m2) w4))
               else (Raise (SystemExit mismatch_message),
                     add_reads (m1 ++ m2) w4)))
  ∧ (∃ w', @run_script sample_platform 3 cyclic_trees = Some (0, w'))
  ∧ outcome_of (@transitively_included_ninja_files 5
                  "out/determinism_test_out1"
                  (combined_ninja "out/determinism_test_out1" the_product) ∅
                  equal_trees)
    = Some (Ok (manifest_of "out/determinism_test_out1"),
            manifest_of "out/determinism_test_out1")
  ∧ count_occ String.string_dec (manifest_of "out/determinism_test_out1")
      "out/determinism_test_out1/d.ninja" = 1%nat.
Proof.
  split_and!; [|eexists; vm_compute; reflexivity|vm_compute; reflexivity..].
  intros platform fuel w w0 w1 w2 w3 s1 s2 m1 m2 Hs Hb Hr1 Hr2 w4 hash1 hash2.
  pose proof (run_script_verdict _ _ _ _ _ _ _ _ _ _ Hs Hb Hr1 Hr2) as Hmain.
  assert (Hempty : ∀ q : string, q ∉ dom (∅ : Seen)) by set_solver.
  pose proof (transitively_included_order _ _ _ _ _ _ _ _ (Hempty _) Hr1)
    as Ho1.
  pose proof (transitively_included_order _ _ _ _ _ _ _ _ (Hempty _) Hr2)
    as Ho2.
  rewrite dom_empty_L in Ho1, Ho2.
  apply manifest_present in Hr1 as (-> & Hnd1 & Hm1).
  apply manifest_present in Hr2 as (-> & Hnd2 & Hm2).
  set (w3 := add_reads m2 (add_reads m1 w1)) in *.
  assert (Hm1' : ∀ q, q ∈ m1 → q ∈ dom (files w4)).
  { intros q Hq. unfold w4. rewrite both_packaged_dom.
    apply elem_of_union_r. by apply Hm1. }
  assert (Hm2' : ∀ q, q ∈ m2 → q ∈ dom (files (add_reads m1 w4))).
  { intros q Hq. change (files (add_reads m1 w4)) with (files w4).
    unfold w4. rewrite both_packaged_dom.
    apply elem_of_union_r. by apply Hm2. }
  split_and!; [done..| | |].
  - by apply hash_files_present.
  - rewrite hash_files_present by done. by rewrite add_reads_app.
  - rewrite Hmain. unfold verdict, manifest_digest. fold w4 hash1 hash2.
    reflexivity.
Qed.

Lemma diamond_shared_file_is_hashed_once :
  ∃ m s w2 h ww,
    transitively_included_ninja_files 5 "out/determinism_test_out1"
      (combined_ninja "out/determinism_test_out1" the_product) ∅
      (target_env equal_trees) = Some (Ok m, s, w2)
    ∧ hash_ninja_file 5 "out/determinism_test_out1"
        (combined_ninja "out/determinism_test_out1" the_product) md5_new
        (target_env equal_trees) = (Ok tt, h, ww)
    ∧ (hash_files m w2).1 = Ok (manifest_digest equal_trees m)
    ∧ manifest_digest equal_trees m ≠ hasher_hexdigest h
    ∧ contents_of (files equal_trees) m ≠ fed h
    ∧ count_occ String.string_dec m "out/determinism_test_out1/d.ninja" = 1%nat
    ∧ count_occ String.string_dec (reads ww)
        "out/determinism_test_out1/d.ninja" = 2%nat.
Proof.
  eexists _, _, _, _, _. split_and!.
  - vm_compute. reflexivity.
  - vm_compute. reflexivity.
  - vm_compute. reflexivity.
  - vm_compute. discriminate.
  - vm_compute. discriminate.
  - vm_compute. reflexivity.
  - vm_compute. reflexivity.
Qed.

Lemma program_digest_witness :
  NoDup (manifest_of "out/determinism_test_out1")
  ∧ NoDup (manifest_of "out/determinism_test_out2")
  ∧ discovery_order (files (target_env unequal_trees))
      (out_dir1 unequal_trees) ∅ (manifest_of "out/determinism_test_out1").
Proof.
  assert (H1 : transitively_included_ninja_files 5 (out_dir1 unequal_trees)
                 (combined_ninja (out_dir1 unequal_trees) the_product) ∅
                 (target_env unequal_trees)
               = Some (Ok (manifest_of "out/determinism_test_out1"),
                       list_to_map (map (λ p, (p, true))
                                      (manifest_of "out/determinism_test_out1")),
                       add_reads (manifest_of "out/determinism_test_out1")
                         (target_env unequal_trees)))
    by (vm_compute; reflexivity).
  assert (H2 : transitively_included_ninja_files 5 (out_dir2 unequal_trees)
                 (combined_ninja (out_dir2 unequal_trees) the_product) ∅
                 (add_reads (manifest_of "out/determinism_test_out1")
                    (target_env unequal_trees))
               = Some (Ok (manifest_of "out/determinism_test_out2"),
                       list_to_map (map (λ p, (p, true))
                                      (manifest_of "out/determinism_test_out2")),
                       add_reads (manifest_of "out/determinism_test_out2")
                         (add_reads (manifest_of "out/determinism_test_out1")
                            (target_env unequal_trees))))
    by (vm_compute; reflexivity).
  pose proof (proj1 program_digest_is_of_the_deduplicated_manifest
                sample_platform 5%nat unequal_trees unequal_trees
                (target_env unequal_trees) _ _ _ _ _ _
                eq_refl eq_refl H1 H2) as H.
  exact (conj (proj1 H) (conj (proj1 (proj2 H)) (proj1 (proj2 (proj2 H))))).
Defined.

(** ** A [$] in a directive path *)

Lemma prefix_dollar (c : ascii) (s : string) :
  String.prefix "$" (String c s) = bool_decide ("$"%char = c).
Proof.
  cbn [String.prefix]. destruct (ascii_dec "$" c) as [Hc|Hc].
  - rewrite bool_decide_eq_true_2 by done. by destruct s.
  - by rewrite bool_decide_eq_false_2.
Qed.

Lemma str_in_dollar (p : bytes) :
  Py.str_in "$" (String.string_of_list_byte p) = true ↔ DOLLAR ∈ p.
Proof.
  unfold String.string_of_list_byte.
  induction p as [|c p IH].
  - split; [intros H; vm_compute in H; discriminate|].
    by intros ?%elem_of_nil.
  - change (String.string_of_list_ascii (map ascii_of_byte (c :: p)))
      with (String (ascii_of_byte c)
              (String.string_of_list_ascii (map ascii_of_byte p))).
    cbn [Py.str_in]. rewrite prefix_dollar.
    rewrite orb_true_iff, IH, elem_of_cons, bool_decide_eq_true.
    split.
    + intros [Hc|?]; [left|by right].
      rewrite <- (byte_of_ascii_of_byte c), <- Hc. reflexivity.
    + intros [<-|?]; [by left|by right].
Qed.

Lemma checked_path_dollar (p : bytes) :
  DOLLAR ∈ p →
  checked_path p
  = if Py.utf8_valid p
    then Raise (SystemExit (unsupported +:+ String.string_of_list_byte p))
    else Raise UnicodeDecodeError.
Proof.
  intros Hp. unfold checked_path, Py.decode.
  destruct (Py.utf8_valid p); [|done]. simpl.
  by rewrite (proj2 (str_in_dollar p) Hp).
Qed.

Lemma checked_path_ok (p : bytes) (path : string) :
  checked_path p = Ok path → (DOLLAR ∉ p) ∧ Py.utf8_valid p = true.
Proof.
  unfold checked_path, Py.decode.
  destruct (Py.utf8_valid p); [|done]. simpl.
  destruct (Py.str_in "$" _) eqn:E; [done|].
  intros _. split; [|done]. intros Hp%str_in_dollar. congruence.
Qed.

Lemma traverse_ok {A B} (f : A → result B) (l : list A) (ys : list B) :
  traverse f l = Ok ys → ∀ x, x ∈ l → ∃ y, f x = Ok y.
Proof.
  revert ys. induction l as [|a l IH]; intros ys; simpl.
  - intros _ x Hx. by apply elem_of_nil in Hx.
  - destruct (f a) as [y|e] eqn:Ha; [|done]. simpl.
    destruct (traverse f l) as [ys'|e]; [|done]. simpl.
    intros _ x [->|Hx]%elem_of_cons; [eauto|]. by eapply IH.
Qed.

Lemma traverse_first_failure {A B} (f : A → result B) (l : list A)
    (P : A → Prop) :
  (∀ x, P x → ∃ e, f x = Raise e) →
  Exists P l →
  ∃ e x, traverse f l = Raise e ∧ x ∈ l ∧ f x = Raise e.
Proof.
  intros HP. induction 1 as [a l Ha|a l _ IH]; simpl.
  - destruct (HP a Ha) as [e He]. rewrite He.
    exists e, a. split_and!; [done|left|done].
  - destruct (f a) as [y|e] eqn:Hfa; simpl.
    + destruct IH as (e & x & -> & Hx & Hfx).
      exists e, x. split_and!; [done|by right|done].
    + exists e, a. split_and!; [done|left|done].
Qed.

Lemma scan_ok_no_dollar (contents : bytes) (sub_files : list string) :
  find_subninjas_and_includes contents = Ok sub_files →
  ∀ p, p ∈ directive_paths contents → DOLLAR ∉ p.
Proof.
  rewrite find_subninjas_and_includes_lines. intros Hok p Hp.
  destruct (traverse_ok _ _ _ Hok p Hp) as [path Hpath].
  by apply checked_path_ok in Hpath as [? _].
Qed.

(** The files of a returned manifest were all read and scanned. *)
Lemma manifest_members_scanned (fuel : nat) (out_dir file : string)
    (seen seen' : Seen) (w w' : World) (m : list string) :
  file ∉ dom seen →
  transitively_included_ninja_files fuel out_dir file seen w
  = Some (Ok m, seen', w') →
  ∀ f, f ∈ m →
    ∃ contents sub_files,
      files w !! f = Some contents
      ∧ find_subninjas_and_includes contents = Ok sub_files.
Proof.
  revert file seen seen' w w' m.
  induction fuel as [|fuel IH]; intros file seen seen' w w' m Hfile; [done|].
  simpl. destruct (read_file file w) as [r w1] eqn:Hread.
  apply read_file_inv in Hread
    as [(contents & -> & Hc & ->)|(-> & Hc & ->)]; [|done].
  destruct (find_subninjas_and_includes contents) as [sub_files|e] eqn:Hscan;
    [|done].
  intros Hloop.
  pose (I := λ (_ results : list string) (_ : Seen) (w_c : World),
    files w_c = files w
    ∧ ∀ f, f ∈ results →
        ∃ contents sub_files,
          files w !! f = Some contents
          ∧ find_subninjas_and_includes contents = Ok sub_files).
  eapply (resolve_loop_inv _ out_dir I) in Hloop.
  - by destruct Hloop as [_ Hm].
  - by intros sub rest results seen_c w_c HI _.
  - intros sub rest results seen_c w_c more seen1 w1 [Hw HI] Hsub Hrec.
    pose proof (IH _ _ _ _ _ _ Hsub Hrec) as Hmore.
    apply transitively_included_basic in Hrec as (new & -> & _); [|done].
    split; [done|].
    intros f [Hf|Hf]%elem_of_app; [by apply HI|].
    rewrite <- Hw. by apply Hmore.
  - split; [done|]. intros f ->%list_elem_of_singleton. eauto.
Qed.

Lemma run_script_raise `{Platform} (fuel : nat) (w w' : World) (e : exn) :
  main fuel w = Some (Raise e, w') →
  ∃ wf, run_script fuel w = Some (1, wf).
Proof. intros Hm. unfold run_script. rewrite Hm. destruct e; eauto. Qed.

Lemma checked_path_no_dollar (p : bytes) :
  DOLLAR ∉ p →
  checked_path p
  = if Py.utf8_valid p then Ok (String.string_of_list_byte p)
    else Raise UnicodeDecodeError.
Proof.
  intros Hp. unfold checked_path, Py.decode.
  destruct (Py.utf8_valid p); [|done]. simpl.
  destruct (Py.str_in "$" _) eqn:E; [|done]. by apply str_in_dollar in E.
Qed.

(** The first directive path that holds a [$]. *)
Lemma first_dollar_path (l : list bytes) :
  (∃ p, p ∈ l ∧ DOLLAR ∈ p) →
  ∃ pre p post,
    l = pre ++ p :: post ∧ DOLLAR ∈ p ∧ Forall (λ q, DOLLAR ∉ q) pre.
Proof.
  induction l as [|a l IH]; intros (p & Hp & Hd).
  { by apply elem_of_nil in Hp. }
  destruct (decide (DOLLAR ∈ a)) as [Ha|Ha].
  { exists [], a, l. by split_and!. }
  destruct IH as (pre & p' & post & -> & Hd' & Hpre).
  { apply elem_of_cons in Hp as [->|Hp]; [done|eauto]. }
  exists (a :: pre), p', post. split_and!; [done|done|by constructor].
Qed.

Lemma traverse_checked_first_dollar (pre post : list bytes) (p : bytes) :
  Forall (λ q, DOLLAR ∉ q) pre → DOLLAR ∈ p →
  traverse checked_path (pre ++ p :: post)
  = if forallb Py.utf8_valid (pre ++ [p])
    then Raise (SystemExit (unsupported +:+ String.string_of_list_byte p))
    else Raise UnicodeDecodeError.
Proof.
  intros Hpre Hp. induction Hpre as [|a pre Ha Hpre IH]; simpl.
  - rewrite checked_path_dollar by done. by destruct (Py.utf8_valid p).
  - rewrite checked_path_no_dollar by done.
    destruct (Py.utf8_valid a); simpl; [|done].
    rewrite IH. by destruct (forallb _ _).
Qed.

Lemma traverse_checked_first_failure (pre post : list bytes) (q : bytes)
    (e : exn) :
  Forall (λ x, Py.utf8_valid x = true ∧ (DOLLAR ∉ x)) pre →
  checked_path q = Raise e →
  traverse checked_path (pre ++ q :: post) = Raise e.
Proof.
  intros Hpre Hq. induction Hpre as [|a pre [Hv Ha] Hpre IH]; simpl.
  - by rewrite Hq.
  - rewrite checked_path_no_dollar, Hv by done. simpl. by rewrite IH.
Qed.

(** C6, as the code has it.  A content with a directive path that holds a
    [$] is never scanned to a list: the scan raises.  The directive paths are
    checked in the order of their lines, each decoded before it is searched
    for a [$].  So with [p] the first directive path that holds a [$], the
    scan raises the exit with the message about variables, naming [p], if
    the directive paths up to and including [p] all decode, and a decoding
    error otherwise; in general, a directive path that does not decode
    raises the decoding error, and one that decodes and holds a [$] raises
    the exit naming it, as soon as every directive path before it decodes
    and holds no [$].  The resolver that reads a file whose scan raises,
    raises the same exception after marking the file; a manifest that is
    returned holds no file with a [$] in a directive path; an exception that
    leaves [main] ends the process with status 1. *)
Theorem dollar_in_directive_path_aborts_the_scan :
  (∀ contents : bytes,
     (∃ p, p ∈ directive_paths contents ∧ DOLLAR ∈ p) →
     ∃ pre p post,
       directive_paths contents = pre ++ p :: post
       ∧ DOLLAR ∈ p
       ∧ Forall (λ q, DOLLAR ∉ q) pre
       ∧ find_subninjas_and_includes contents
         = if forallb Py.utf8_valid (pre ++ [p])
           then Raise (SystemExit
                         (unsupported +:+ String.string_of_list_byte p))
           else Raise UnicodeDecodeError)
  ∧ (∀ (contents : bytes) (pre post : list bytes) (q : bytes),
       directive_paths contents = pre ++ q :: post →
       Forall (λ x, Py.utf8_valid x = true ∧ (DOLLAR ∉ x)) pre →
       (Py.utf8_valid q = false →
        find_subninjas_and_includes contents = Raise UnicodeDecodeError)
       ∧ (Py.utf8_valid q = true → DOLLAR ∈ q →
          find_subninjas_and_includes contents
          = Raise (SystemExit
                     (unsupported +:+ String.string_of_list_byte q))))
  ∧ (∀ (fuel : nat) (out_dir file : string) (seen : Seen) (w : World)
       (contents : bytes) (e : exn),
       files w !! file = Some contents →
       find_subninjas_and_includes contents = Raise e →
       transitively_included_ninja_files (S fuel) out_dir file seen w
       = Some (Raise e, <[file:=true]> seen, add_reads [file] w))
  ∧ (∀ (fuel : nat) (out_dir root : string) (w w' : World) (seen' : Seen)
       (m : list string),
       transitively_included_ninja_files fuel out_dir root ∅ w
       = Some (Ok m, seen', w') →
       ∀ f contents p,
         f ∈ m → files w !! f = Some contents →
         p ∈ directive_paths contents → DOLLAR ∉ p)
  ∧ (∀ (platform : Platform) (fuel : nat) (w w' : World) (e : exn),
       main fuel w = Some (Raise e, w') →
       ∃ wf, run_script fuel w = Some (1, wf)).
Proof.
  split_and!.
  - intros contents Hp.
    destruct (first_dollar_path _ Hp) as (pre & p & post & Hdp & Hd & Hpre).
    exists pre, p, post. split_and!; [done..|].
    rewrite find_subninjas_and_includes_lines, Hdp.
    by apply traverse_checked_first_dollar.
  - intros contents pre post q Hdp Hpre.
    rewrite find_subninjas_and_includes_lines, Hdp.
    split.
    + intros Hq. apply traverse_checked_first_failure; [done|].
      unfold checked_path, Py.decode. by rewrite Hq.
    + intros Hq Hd. apply traverse_checked_first_failure; [done|].
      rewrite checked_path_dollar by done. by rewrite Hq.
  - intros fuel out_dir file seen w contents e Hc Hscan. simpl.
    unfold read_file. by rewrite Hc, Hscan.
  - intros fuel out_dir root w w' seen' m Hr f contents p Hf Hc Hp.
    destruct (manifest_members_scanned _ _ _ _ _ _ _ _
                (ltac:(set_solver) : root ∉ dom (∅ : Seen)) Hr f Hf)
      as (c & subs & Hc' & Hscan).
    rewrite Hc in Hc'. injection Hc' as <-.
    by eapply scan_ok_no_dollar.
  - intros platform fuel w w' e. apply run_script_raise.
Qed.

Lemma dollar_in_directive_path_witness :
  (∃ p, p ∈ directive_paths (Py.b "include out/$x.ninja") ∧ DOLLAR ∈ p)
  ∧ find_subninjas_and_includes (Py.b "include out/$x.ninja")
    = Raise (SystemExit (unsupported +:+ "out/$x.ninja")).
Proof.
  assert (Hp : ∃ p, p ∈ directive_paths (Py.b "include out/$x.ninja")
                    ∧ DOLLAR ∈ p).
  { exists (Py.b "out/$x.ninja"). split.
    - change (directive_paths (Py.b "include out/$x.ninja"))
        with [Py.b "out/$x.ninja"]. left.
    - unfold DOLLAR. change (Py.b "out/$x.ninja")
        with (Py.b "out/" ++ x24 :: Py.b "x.ninja").
      apply elem_of_app. right. left. }
  split; [exact Hp|].
  destruct (proj1 dollar_in_directive_path_aborts_the_scan _ Hp)
    as (pre & p & post & Hdp & _ & _ & ->).
  change (directive_paths (Py.b "include out/$x.ninja"))
    with [Py.b "out/$x.ninja"] in Hdp.
  destruct pre as [|a pre].
  - injection Hdp as <- _. reflexivity.
  - injection Hdp as _ Hdp. by destruct pre.
Defined.

Lemma undecodable_path_raises_before_dollar :
  (∃ p, p ∈ directive_paths undecodable_then_dollar ∧ DOLLAR ∈ p)
  ∧ find_subninjas_and_includes undecodable_then_dollar
    = Raise UnicodeDecodeError
  ∧ ∀ msg, find_subninjas_and_includes undecodable_then_dollar
           ≠ Raise (SystemExit msg).
Proof.
  split_and!.
  - exists (Py.b "$a"). split.
    + change (directive_paths undecodable_then_dollar)
        with [[xff]; Py.b "$a"]. right. left.
    + left.
  - vm_compute. reflexivity.
  - intros msg. vm_compute. discriminate.
Qed.

Lemma exit_status_witness :
  ∃ code w', @run_script sample_platform 5 unequal_trees = Some (code, w').
Proof.
  assert (H1 : transitively_included_ninja_files 5 (out_dir1 unequal_trees)
                 (combined_ninja (out_dir1 unequal_trees) the_product) ∅
                 (target_env unequal_trees)
               = Some (Ok (manifest_of "out/determinism_test_out1"),
                       list_to_map (map (λ p, (p, true))
                                      (manifest_of "out/determinism_test_out1")),
                       add_reads (manifest_of "out/determinism_test_out1")
                         (target_env unequal_trees)))
    by (vm_compute; reflexivity).
  assert (H2 : transitively_included_ninja_files 5 (out_dir2 unequal_trees)
                 (combined_ninja (out_dir2 unequal_trees) the_product) ∅
                 (add_reads (manifest_of "out/determinism_test_out1")
                    (target_env unequal_trees))
               = Some (Ok (manifest_of "out/determinism_test_out2"),
                       list_to_map (map (λ p, (p, true))
                                      (manifest_of "out/determinism_test_out2")),
                       add_reads (manifest_of "out/determinism_test_out2")
                         (add_reads (manifest_of "out/determinism_test_out1")
                            (target_env unequal_trees))))
    by (vm_compute; reflexivity).
  destruct (@exit_status_reflects_digest_comparison sample_platform 5%nat
              unequal_trees unequal_trees (target_env unequal_trees)
              _ _ _ _ _ _ eq_refl eq_refl H1 H2)
    as (hash1 & hash2 & code & w' & _ & _ & Hrun & _).
  exists code, w'. exact Hrun.
Defined.

Lemma archives_written_witness :
  ∃ m1 s1 w2,
    transitively_included_ninja_files 5 (out_dir1 equal_trees)
      (combined_ninja (out_dir1 equal_trees) the_product) ∅
      (target_env equal_trees) = Some (Ok m1, s1, w2).
Proof.
  assert (Hmain : ∃ w', @main sample_platform 5 equal_trees = Some (Ok tt, w')).
  { eexists. vm_compute. reflexivity. }
  destruct Hmain as [w' Hmain].
  destruct (@archives_written_before_comparison sample_platform 5%nat
              equal_trees equal_trees (target_env equal_trees) w' (Ok tt)
              eq_refl eq_refl Hmain (or_introl eq_refl))
    as (m1 & m2 & s1 & s2 & w2 & w3 & H1 & _).
  exists m1, s1, w2. exact H1.
Defined.

(** * Further properties of the script *)

(** ** Outcomes by computation *)




(** ** The resolver with any registry *)






(** ** The manifest is the set of reachable files *)




(** ** What the hashing walk opens and feeds *)




(** ** The manifest and the hashing walk *)










(** ** More on the scanner *)













(** ** Paths *)


Lemma strip_prefix_Some (p s t : string) :
  Py.strip_prefix p s = Some t → s = p +:+ t.
Proof.
  revert s. induction p as [|c p IH]; intros s; simpl.
  - by intros [= ->].
  - destruct s as [|d s]; [done|].
    destruct (Ascii.eqb c d) eqn:E; [|done].
    apply Ascii.eqb_eq in E. subst d. intros H%IH. by rewrite H.
Qed.














(** ** The packager *)





(** ** A resolution that raises *)





(** ** [get_top] *)
























